(** * detray: coordinate frames, bound/free track parameters and grid axes

    A shallow embedding of

    - [core/include/detray/coordinates/cartesian2.hpp]
    - [core/include/detray/coordinates/coordinate_base.hpp]
    - [core/include/grids/axis.hpp]

    Scalars of the coordinate code are real numbers (exact arithmetic); a
    division whose divisor is zero is an explicit [DivByZero] outcome.
    Scalars of the grid axes are rationals, machine integers are integers
    with their range written out.  Where the rounding of the program's
    [double] scalars decides a statement, module [binary64] evaluates the
    same operations on doubles. *)

From Stdlib Require Import Reals Lra Lia ZArith QArith Qround Qreals.
From Stdlib Require Import List Bool Arith.
From Stdlib Require Lqa Floats.PrimFloat.
Import ListNotations.

(** ** Fixed-size matrices and the algebra plugin *)

Module algebra.

Local Open Scope R_scope.

Definition scalar : Type := R.

(** [point2], [point3], [vector3]: fixed-size arrays, read with [p[i]]. *)
Definition point2 : Type := (scalar * scalar)%type.
Definition point3 : Type := (scalar * scalar * scalar)%type.
Definition vector3 : Type := point3.

Definition at2 (p : point2) (i : nat) : scalar :=
  match i with O => fst p | _ => snd p end.

Definition at3 (p : point3) (i : nat) : scalar :=
  let '(a, b, c) := p in
  match i with O => a | 1%nat => b | _ => c end.

(** [matrix_type<ROWS, COLS>]: entries addressed by (row, column).  The two
    sizes are carried by the type; statements about a matrix quantify over
    the indices inside them (see [mat_eq]). *)
Record matrix_type (ROWS COLS : nat) : Type := mk_matrix {
  entries : nat -> nat -> scalar
}.

Arguments mk_matrix {ROWS COLS} entries.
Arguments entries {ROWS COLS} m row col.

Definition mat_eq {ROWS COLS : nat} (A B : matrix_type ROWS COLS) : Prop :=
  forall i j, (i < ROWS)%nat -> (j < COLS)%nat -> entries A i j = entries B i j.

(** A matrix written out row by row. *)
Definition of_rows {ROWS COLS : nat} (rows : list (list scalar))
  : matrix_type ROWS COLS :=
  mk_matrix (fun i j => nth j (nth i rows []) 0).

(** Modelled from the spec: the bound and free index constants of
    [detray/definitions/track_parametrization.hpp], which is not among the
    sources; numbered as the data model of the specification lists them. *)
Definition e_bound_loc0 : nat := 0.
Definition e_bound_loc1 : nat := 1.
Definition e_bound_phi : nat := 2.
Definition e_bound_theta : nat := 3.
Definition e_bound_time : nat := 4.
Definition e_bound_qoverp : nat := 5.
Definition e_bound_size : nat := 6.

Definition e_free_pos0 : nat := 0.
Definition e_free_pos1 : nat := 1.
Definition e_free_pos2 : nat := 2.
Definition e_free_time : nat := 3.
Definition e_free_dir0 : nat := 4.
Definition e_free_dir1 : nat := 5.
Definition e_free_dir2 : nat := 6.
Definition e_free_qoverp : nat := 7.
Definition e_free_size : nat := 8.

(** Modelled from the spec: the [matrix_actor] of the algebra plugin (not
    among the sources): zero matrix, element access and assignment, reading
    and writing a sub-block at a (row, column) offset, transposition and
    scaling. *)
Module matrix_actor.

Definition zero (ROWS COLS : nat) : matrix_type ROWS COLS :=
  mk_matrix (fun _ _ => 0).

Definition element {ROWS COLS : nat} (m : matrix_type ROWS COLS)
  (row col : nat) : scalar := entries m row col.

(** [element(m, row, col) = v]. *)
Definition set_element {ROWS COLS : nat} (m : matrix_type ROWS COLS)
  (row col : nat) (v : scalar) : matrix_type ROWS COLS :=
  mk_matrix
    (fun i j => if (i =? row)%nat && (j =? col)%nat then v else entries m i j).

(** [block<ROWS, COLS>(m, row, col)]. *)
Definition block {R0 C0 : nat} (ROWS COLS : nat) (m : matrix_type R0 C0)
  (row col : nat) : matrix_type ROWS COLS :=
  mk_matrix (fun i j => entries m (row + i) (col + j)).

(** [set_block(m, b, row, col)], the block being [ROWS] by [COLS]. *)
Definition set_block {R0 C0 : nat} (ROWS COLS : nat) (m : matrix_type R0 C0)
  (b : matrix_type ROWS COLS) (row col : nat) : matrix_type R0 C0 :=
  mk_matrix
    (fun i j =>
       if (row <=? i)%nat && (i <? row + ROWS)%nat
          && (col <=? j)%nat && (j <? col + COLS)%nat
       then entries b (i - row) (j - col)
       else entries m i j).

Definition transpose {ROWS COLS : nat} (m : matrix_type ROWS COLS)
  : matrix_type COLS ROWS :=
  mk_matrix (fun i j => entries m j i).

(** [k * m]. *)
Definition scale {ROWS COLS : nat} (k : scalar) (m : matrix_type ROWS COLS)
  : matrix_type ROWS COLS :=
  mk_matrix (fun i j => k * entries m i j).

End matrix_actor.

(** Modelled from the spec: [vector::dot] of the algebra plugin, between a
    3x1 column and a 3-vector. *)
Definition dot (a : matrix_type 3 1) (b : vector3) : scalar :=
  matrix_actor.element a 0 0 * at3 b 0
  + matrix_actor.element a 1 0 * at3 b 1
  + matrix_actor.element a 2 0 * at3 b 2.

(** Modelled from the spec: [transform3] of the algebra plugin (not among
    the sources), a rotation and a translation carrying the local frame of a
    surface to the global frame; [point_to_local] undoes [point_to_global]
    of a rigid transform. *)
Record transform3 : Type := mk_transform3 {
  rotation : matrix_type 3 3;
  translation : vector3
}.

Definition rotate (m : matrix_type 3 3) (v : vector3) : vector3 :=
  let row (i : nat) :=
    matrix_actor.element m i 0 * at3 v 0
    + matrix_actor.element m i 1 * at3 v 1
    + matrix_actor.element m i 2 * at3 v 2 in
  (row 0%nat, row 1%nat, row 2%nat).

Definition point_to_global (trf3 : transform3) (p : point3) : point3 :=
  let rg := rotate (rotation trf3) p in
  let t := translation trf3 in
  (at3 rg 0 + at3 t 0, at3 rg 1 + at3 t 1, at3 rg 2 + at3 t 2).

Definition point_to_local (trf3 : transform3) (p : point3) : point3 :=
  let t := translation trf3 in
  rotate (matrix_actor.transpose (rotation trf3))
         (at3 p 0 - at3 t 0, at3 p 1 - at3 t 1, at3 p 2 - at3 t 2).

(** The columns of the rotation are orthonormal: what makes a
    [transform3] the transform of a surface. *)
Definition rigid (trf3 : transform3) : Prop :=
  let r := rotation trf3 in
  forall i j, (i < 3)%nat -> (j < 3)%nat ->
    matrix_actor.element r 0 i * matrix_actor.element r 0 j
    + matrix_actor.element r 1 i * matrix_actor.element r 1 j
    + matrix_actor.element r 2 i * matrix_actor.element r 2 j
    = if (i =? j)%nat then 1 else 0.

Definition identity3 : matrix_type 3 3 :=
  mk_matrix (fun i j => if (i =? j)%nat then 1 else 0).

Definition identity_transform : transform3 :=
  mk_transform3 identity3 (0, 0, 0).

(** Modelled from the spec: [std::atan2] on exact reals, with its value in
    (-pi, pi]. *)
Definition atan2 (y x : scalar) : scalar :=
  if Rlt_dec 0 x then atan (y / x)
  else if Rlt_dec x 0 then
    if Rle_dec 0 y then atan (y / x) + PI else atan (y / x) - PI
  else if Rlt_dec 0 y then PI / 2
  else if Rlt_dec y 0 then - (PI / 2)
  else 0.

(** Modelled from the spec: [getter::phi] and [getter::theta] of the algebra
    plugin: [phi = atan2(dir_y, dir_x)], [theta = acos(dir_z)]. *)
Module getter.

Definition phi (v : vector3) : scalar := atan2 (at3 v 1) (at3 v 0).

Definition theta (v : vector3) : scalar := acos (at3 v 2).

End getter.

(** Modelled from the spec: [detail::track_helper] (not among the sources).
    [pos] and [dir] read the position and direction rows of a free vector,
    [local] the two local coordinates of a bound vector, and [bound_dir] is
    the overload of [dir] on a bound vector:
    [(sin theta cos phi, sin theta sin phi, cos theta)]. *)
Module track_helper.

Import matrix_actor.

Definition pos {ROWS : nat} (free_vec : matrix_type ROWS 1) : point3 :=
  (element free_vec e_free_pos0 0,
   element free_vec e_free_pos1 0,
   element free_vec e_free_pos2 0).

Definition dir (free_vec : matrix_type e_free_size 1) : vector3 :=
  (element free_vec e_free_dir0 0,
   element free_vec e_free_dir1 0,
   element free_vec e_free_dir2 0).

Definition local (bound_vec : matrix_type e_bound_size 1) : point2 :=
  (element bound_vec e_bound_loc0 0, element bound_vec e_bound_loc1 0).

Definition bound_dir (bound_vec : matrix_type e_bound_size 1) : vector3 :=
  let phi := element bound_vec e_bound_phi 0 in
  let theta := element bound_vec e_bound_theta 0 in
  (sin theta * cos phi, sin theta * sin phi, cos theta).

End track_helper.

(** Outcome of a computation that divides: the value, or [DivByZero] when a
    divisor was zero (the quotient is then not a finite number). *)
Inductive result (A : Type) : Type :=
| Ok (a : A)
| DivByZero.

Arguments Ok {A} a.
Arguments DivByZero {A}.

Definition bind {A B : Type} (r : result A) (k : A -> result B) : result B :=
  match r with
  | Ok a => k a
  | DivByZero => DivByZero
  end.

(** [a / b] on scalars. *)
Definition div (a b : scalar) : result scalar :=
  if Req_dec_T b 0 then DivByZero else Ok (a / b).

(** A matrix read entry by entry as outcomes: an entry written with a
    quotient is [DivByZero] when the divisor was zero (the program holds an
    infinity or a NaN in that entry and goes on), any other entry is its
    value. *)
Record outcome_matrix (ROWS COLS : nat) : Type := mk_outcomes {
  outcomes : nat -> nat -> result scalar
}.

Arguments mk_outcomes {ROWS COLS} outcomes.
Arguments outcomes {ROWS COLS} _ _ _.

Definition outcome {ROWS COLS : nat} (m : outcome_matrix ROWS COLS)
  (row col : nat) : result scalar := outcomes m row col.

(** A matrix all of whose entries are values. *)
Definition values {ROWS COLS : nat} (m : matrix_type ROWS COLS)
  : outcome_matrix ROWS COLS :=
  mk_outcomes (fun i j => Ok (entries m i j)).

(** [element(m, row, col) = r], [r] the outcome of the right-hand side. *)
Definition set_outcome {ROWS COLS : nat} (m : outcome_matrix ROWS COLS)
  (row col : nat) (r : result scalar) : outcome_matrix ROWS COLS :=
  mk_outcomes
    (fun i j => if (i =? row)%nat && (j =? col)%nat then r else outcomes m i j).

Definition set_value {ROWS COLS : nat} (m : outcome_matrix ROWS COLS)
  (row col : nat) (v : scalar) : outcome_matrix ROWS COLS :=
  set_outcome m row col (Ok v).

(** [set_block(m, b, row, col)] with a block of values. *)
Definition set_block_values {R0 C0 : nat} (ROWS COLS : nat)
  (m : outcome_matrix R0 C0) (b : matrix_type ROWS COLS) (row col : nat)
  : outcome_matrix R0 C0 :=
  mk_outcomes
    (fun i j =>
       if (row <=? i)%nat && (i <? row + ROWS)%nat
          && (col <=? j)%nat && (j <? col + COLS)%nat
       then Ok (entries b (i - row) (j - col))
       else outcomes m i j).

Definition is_value (r : result scalar) : bool :=
  match r with Ok _ => true | DivByZero => false end.

Definition value (r : result scalar) : scalar :=
  match r with Ok a => a | DivByZero => 0 end.

Fixpoint all_below (n : nat) (ok : nat -> bool) : bool :=
  match n with
  | O => true
  | S k => all_below k ok && ok k
  end.

(** The matrix of the values when every entry is one; [DivByZero] when some
    entry is. *)
Definition finite {ROWS COLS : nat} (m : outcome_matrix ROWS COLS)
  : result (matrix_type ROWS COLS) :=
  if all_below ROWS
       (fun i => all_below COLS (fun j => is_value (outcomes m i j)))
  then Ok (mk_matrix (fun i j => value (outcomes m i j)))
  else DivByZero.

End algebra.

Declare Scope result_scope.
Delimit Scope result_scope with result.
Notation "x <- c ;; k" := (algebra.bind c (fun x => k))
  (at level 61, c at next level, right associativity) : result_scope.

(** ** The frame variants and [cartesian2] *)

(** What [coordinate_base] calls on [Derived<transform3_t>()]: the interface
    every frame variant implements.  [mask_t] is the type of the shape
    descriptor of the surface. *)
Module Derived.

Import algebra.

Class t (mask_t : Type) : Type := {
  global_to_local : transform3 -> point3 -> vector3 -> point2;
  local_to_global : transform3 -> mask_t -> point2 -> vector3 -> point3;
  reference_frame :
    transform3 -> mask_t -> point3 -> vector3 -> matrix_type 3 3;
  bound_pos_to_free_pos_derivative :
    transform3 -> mask_t -> point3 -> vector3 -> matrix_type 3 2;
  free_pos_to_bound_pos_derivative :
    transform3 -> mask_t -> point3 -> vector3 -> matrix_type 2 3
}.

End Derived.

(** [struct cartesian2]: frame projection into a cartesian coordinate
    frame. *)
Module cartesian2.

Import algebra.

Section cartesian2.

Context {mask_t : Type}.

(** [operator()(const point2 &local2)]. *)
Definition call2 (local2 : point2) : point2 :=
  (at2 local2 0, at2 local2 1).

(** [operator()(const point3 &local3)]. *)
Definition call3 (local3 : point3) : point2 :=
  (at3 local3 0, at3 local3 1).

Definition global_to_local (trf3 : transform3) (p : point3) (d : vector3)
  : point2 :=
  let local3 := point_to_local trf3 p in
  call3 local3.

Definition local_to_global (trf3 : transform3) (mask : mask_t) (p : point2)
  (d : vector3) : point3 :=
  point_to_global trf3 (at2 p 0, at2 p 1, 0%R).

Definition reference_frame (trf3 : transform3) (mask : mask_t) (pos : point3)
  (dir : vector3) : matrix_type 3 3 :=
  rotation trf3.

Definition bound_pos_to_free_pos_derivative (trf3 : transform3)
  (mask : mask_t) (pos : point3) (dir : vector3) : matrix_type 3 2 :=
  let frame := reference_frame trf3 mask pos dir in
  matrix_actor.block 3 2 frame 0 0.

Definition free_pos_to_bound_pos_derivative (trf3 : transform3)
  (mask : mask_t) (pos : point3) (dir : vector3) : matrix_type 2 3 :=
  let frame := reference_frame trf3 mask pos dir in
  let frameT := matrix_actor.transpose frame in
  matrix_actor.block 2 3 frameT 0 0.

End cartesian2.

#[export] Instance frame (mask_t : Type) : Derived.t mask_t := {|
  Derived.global_to_local := global_to_local;
  Derived.local_to_global := local_to_global;
  Derived.reference_frame := reference_frame;
  Derived.bound_pos_to_free_pos_derivative := bound_pos_to_free_pos_derivative;
  Derived.free_pos_to_bound_pos_derivative := free_pos_to_bound_pos_derivative
|}.

End cartesian2.

(** ** [struct coordinate_base] *)

Module coordinate_base.

Import algebra.
Import matrix_actor.

Local Open Scope R_scope.
Local Open Scope result_scope.

Section coordinate_base.

Context {mask_t : Type} {D : Derived.t mask_t}.

Definition bound_vector : Type := matrix_type e_bound_size 1.
Definition free_vector : Type := matrix_type e_free_size 1.
Definition bound_to_free_matrix : Type := matrix_type e_free_size e_bound_size.
Definition free_to_bound_matrix : Type := matrix_type e_bound_size e_free_size.
Definition free_to_path_matrix : Type := matrix_type 1 e_free_size.

(** [bound_vec] is declared without an initial value and each of its six
    rows is then assigned; it starts from the zero column here.  The same
    holds for [free_vec] in [bound_to_free_vector]. *)
Definition free_to_bound_vector (trf3 : transform3) (free_vec : free_vector)
  : bound_vector :=
  let pos := track_helper.pos free_vec in
  let dir := track_helper.dir free_vec in
  let local := Derived.global_to_local trf3 pos dir in
  let bound_vec : bound_vector := zero e_bound_size 1 in
  let bound_vec := set_element bound_vec e_bound_loc0 0 (at2 local 0) in
  let bound_vec := set_element bound_vec e_bound_loc1 0 (at2 local 1) in
  let bound_vec := set_element bound_vec e_bound_phi 0 (getter.phi dir) in
  let bound_vec := set_element bound_vec e_bound_theta 0 (getter.theta dir) in
  let bound_vec :=
    set_element bound_vec e_bound_time 0 (element free_vec e_free_time 0) in
  let bound_vec :=
    set_element bound_vec e_bound_qoverp 0
      (element free_vec e_free_qoverp 0) in
  bound_vec.

Definition bound_to_free_vector (trf3 : transform3) (mask : mask_t)
  (bound_vec : bound_vector) : free_vector :=
  let local := track_helper.local bound_vec in
  let dir := track_helper.bound_dir bound_vec in
  let pos := Derived.local_to_global trf3 mask local dir in
  let free_vec : free_vector := zero e_free_size 1 in
  let free_vec := set_element free_vec e_free_pos0 0 (at3 pos 0) in
  let free_vec := set_element free_vec e_free_pos1 0 (at3 pos 1) in
  let free_vec := set_element free_vec e_free_pos2 0 (at3 pos 2) in
  let free_vec :=
    set_element free_vec e_free_time 0 (element bound_vec e_bound_time 0) in
  let free_vec := set_element free_vec e_free_dir0 0 (at3 dir 0) in
  let free_vec := set_element free_vec e_free_dir1 0 (at3 dir 1) in
  let free_vec := set_element free_vec e_free_dir2 0 (at3 dir 2) in
  let free_vec :=
    set_element free_vec e_free_qoverp 0
      (element bound_vec e_bound_qoverp 0) in
  free_vec.

(** The position handed to the frame variant is [track_helper().pos]
    applied to the bound vector, as the source has it. *)
Definition bound_to_free_jacobian (trf3 : transform3) (mask : mask_t)
  (bound_vec : bound_vector) : bound_to_free_matrix :=
  let jac_to_global : bound_to_free_matrix :=
    zero e_free_size e_bound_size in
  let theta := element bound_vec e_bound_theta 0 in
  let phi := element bound_vec e_bound_phi 0 in
  let cos_theta := cos theta in
  let sin_theta := sin theta in
  let cos_phi := cos phi in
  let sin_phi := sin phi in
  let pos := track_helper.pos bound_vec in
  let dir := track_helper.bound_dir bound_vec in
  let bound_pos_to_free_pos_derivative :=
    Derived.bound_pos_to_free_pos_derivative trf3 mask pos dir in
  let jac_to_global :=
    set_block 3 2 jac_to_global bound_pos_to_free_pos_derivative
      e_free_pos0 e_bound_loc0 in
  let jac_to_global := set_element jac_to_global e_free_time e_bound_time 1 in
  let jac_to_global :=
    set_element jac_to_global e_free_dir0 e_bound_phi
      (-1 * sin_theta * sin_phi) in
  let jac_to_global :=
    set_element jac_to_global e_free_dir0 e_bound_theta
      (cos_theta * cos_phi) in
  let jac_to_global :=
    set_element jac_to_global e_free_dir1 e_bound_phi
      (sin_theta * cos_phi) in
  let jac_to_global :=
    set_element jac_to_global e_free_dir1 e_bound_theta
      (cos_theta * sin_phi) in
  let jac_to_global :=
    set_element jac_to_global e_free_dir2 e_bound_theta (-1 * sin_theta) in
  let jac_to_global :=
    set_element jac_to_global e_free_qoverp e_bound_qoverp 1 in
  jac_to_global.

(** [free_to_bound_jacobian], write for write, each entry holding the
    outcome of the expression assigned to it.  The two entries of the phi
    row are quotients by [sin_theta], written whatever the divisor is. *)
Definition free_to_bound_jacobian_outcomes (trf3 : transform3)
  (mask : mask_t) (free_vec : free_vector)
  : outcome_matrix e_bound_size e_free_size :=
  let jac_to_local := values (zero e_bound_size e_free_size) in
  let pos := track_helper.pos free_vec in
  let dir := track_helper.dir free_vec in
  let theta := getter.theta dir in
  let phi := getter.phi dir in
  let cos_theta := cos theta in
  let sin_theta := sin theta in
  let cos_phi := cos phi in
  let sin_phi := sin phi in
  let free_pos_to_bound_pos_derivative :=
    Derived.free_pos_to_bound_pos_derivative trf3 mask pos dir in
  let jac_to_local :=
    set_block_values 2 3 jac_to_local free_pos_to_bound_pos_derivative
      e_bound_loc0 e_free_pos0 in
  let jac_to_local := set_value jac_to_local e_bound_time e_free_time 1 in
  let jac_to_local :=
    set_outcome jac_to_local e_bound_phi e_free_dir0
      (div (-1 * sin_phi) sin_theta) in
  let jac_to_local :=
    set_outcome jac_to_local e_bound_phi e_free_dir1
      (div cos_phi sin_theta) in
  let jac_to_local :=
    set_value jac_to_local e_bound_theta e_free_dir0 (cos_phi * cos_theta) in
  let jac_to_local :=
    set_value jac_to_local e_bound_theta e_free_dir1 (sin_phi * cos_theta) in
  let jac_to_local :=
    set_value jac_to_local e_bound_theta e_free_dir2 (-1 * sin_theta) in
  let jac_to_local :=
    set_value jac_to_local e_bound_qoverp e_free_qoverp 1 in
  jac_to_local.

(** The Jacobian as a matrix of numbers: returned when no entry is the
    outcome of a division by zero. *)
Definition free_to_bound_jacobian (trf3 : transform3) (mask : mask_t)
  (free_vec : free_vector) : result free_to_bound_matrix :=
  finite (free_to_bound_jacobian_outcomes trf3 mask free_vec).

(** The correction term is [-1. / dz * transpose(ref_z_axis)]. *)
Definition free_to_path_correction (trf3 : transform3) (mask : mask_t)
  (free_vec : free_vector) : result free_to_path_matrix :=
  let free_to_path : free_to_path_matrix := zero 1 e_free_size in
  let pos := track_helper.pos free_vec in
  let dir := track_helper.dir free_vec in
  let frame := Derived.reference_frame trf3 mask pos dir in
  let ref_z_axis : matrix_type 3 1 := block 3 1 frame 0 2 in
  let dz := dot ref_z_axis dir in
  q <- div (-1) dz ;;
  let correction_term : matrix_type 1 3 := scale q (transpose ref_z_axis) in
  Ok (set_block 1 3 free_to_path correction_term 0 e_free_pos0).

End coordinate_base.

End coordinate_base.

(** ** Grid axes ([grids/axis.hpp]) *)

Module axis.

Local Open Scope Z_scope.

(** [value_type]: the scalars of an axis, exact rationals here. *)
Definition value_type : Type := Q.

(** [unsigned int], the type of the number of bins [kDIM] and of [nhood]:
    32 bits, with the wrap-around of its arithmetic. *)
Definition unsigned_int_modulus : Z := 2 ^ 32.

Definition unsigned_int_sub (a b : Z) : Z := (a - b) mod unsigned_int_modulus.

(** Rounding towards zero, as the conversion of a scalar to an integer
    does. *)
Definition truncate (q : value_type) : Z := Z.quot (Qnum q) (Zpos (Qden q)).

(** [struct closed]: a regular closed axis with [kDIM] bins. *)
Module closed.

Section closed.

(** The index types of [utils/indexing.hpp] are not among the sources:
    [optional_index] is a signed integer type of [optional_index_bits] bits
    and [guaranteed_index] an unsigned one of [guaranteed_index_bits]
    bits. *)
Variable optional_index_bits : Z.
Variable guaranteed_index_bits : Z.

Definition optional_index_min : Z := - 2 ^ (optional_index_bits - 1).
Definition optional_index_max : Z := 2 ^ (optional_index_bits - 1) - 1.

(** [static_cast<optional_index>(q)]: the truncated value when
    [optional_index] can represent it; the conversion has no defined result
    otherwise. *)
Definition to_optional_index (q : value_type) : option Z :=
  let z := truncate q in
  if (optional_index_min <=? z) && (z <=? optional_index_max)
  then Some z else None.

(** [static_cast<guaranteed_index>(z)]: conversion to an unsigned type. *)
Definition to_guaranteed_index (z : Z) : Z := z mod 2 ^ guaranteed_index_bits.

Record t (kDIM : Z) : Type := mk {
  _min : value_type;
  _max : value_type
}.

Arguments _min {kDIM} _.
Arguments _max {kDIM} _.

(** [(v - _min) / (_max - _min) * kDIM]; no finite value when the divisor is
    zero. *)
Definition scaled {kDIM : Z} (ax : t kDIM) (v : value_type)
  : option value_type :=
  if Qeq_bool (_max ax - _min ax) 0 then None
  else Some ((v - _min ax) / (_max ax - _min ax) * inject_Z kDIM)%Q.

Definition bin {kDIM : Z} (ax : t kDIM) (v : value_type) : option Z :=
  match scaled ax v with
  | None => None
  | Some q =>
      match to_optional_index q with
      | None => None
      | Some ibin =>
          Some (if (0 <=? ibin) && (ibin <? kDIM)
                then to_guaranteed_index ibin
                else if ibin <? 0 then 0
                else to_guaranteed_index (unsigned_int_sub kDIM 1))
      end
  end.

(** The value of [ibin - nhood] and [ibin + nhood], between an
    [optional_index] and an [unsigned int]: the operands are converted to
    [unsigned int] and the result wraps when [optional_index] is not wider
    than it; they are converted to [optional_index] otherwise, and the
    result is then defined only where [optional_index] represents it. *)
Definition mixed_arithmetic (z : Z) : option Z :=
  if optional_index_bits <=? 32 then Some (z mod unsigned_int_modulus)
  else if (optional_index_min <=? z) && (z <=? optional_index_max)
       then Some z else None.

(** [guaranteed_range]: a pair of indices; [guaranteed_sequence]: a vector
    of indices. *)
Definition guaranteed_range : Type := (Z * Z)%type.
Definition guaranteed_sequence : Type := list Z.

Definition range {kDIM : Z} (ax : t kDIM) (v : value_type) (nhood : Z)
  : option guaranteed_range :=
  match scaled ax v with
  | None => None
  | Some q =>
      match to_optional_index q with
      | None => None
      | Some ibin =>
          match mixed_arithmetic (ibin - nhood),
                mixed_arithmetic (ibin + nhood) with
          | Some lower, Some upper =>
              let min_bin :=
                if 0 <=? lower then to_guaranteed_index lower else 0 in
              let max_bin :=
                if upper <? kDIM then to_guaranteed_index upper
                else to_guaranteed_index (unsigned_int_sub kDIM 1) in
              Some (min_bin, max_bin)
          | _, _ => None
          end
      end
  end.

(** [std::for_each(sequence.begin(), sequence.end(),
    [&](auto &n) { n += m++; })], the counter [m] threaded through the
    elements; the sums are those of [guaranteed_index]. *)
Fixpoint for_each_add (m : Z) (sequence : guaranteed_sequence)
  : guaranteed_sequence :=
  match sequence with
  | [] => []
  | n :: rest =>
      to_guaranteed_index (n + m)
      :: for_each_add (to_guaranteed_index (m + 1)) rest
  end.

(** The sequence is built with [nh_range[1] - nh_range[0] + 1] copies of
    [nh_range[0]], a number computed in [guaranteed_index] (an unsigned type
    of at least the rank of [unsigned int]) and kept by the conversion to
    the size type of the vector. *)
Definition zone {kDIM : Z} (ax : t kDIM) (v : value_type) (nhood : Z)
  : option guaranteed_sequence :=
  match range ax v nhood with
  | None => None
  | Some nh_range =>
      let size := to_guaranteed_index (snd nh_range - fst nh_range + 1) in
      let sequence := repeat (fst nh_range) (Z.to_nat size) in
      Some (for_each_add 0 sequence)
  end.

End closed.

Arguments mk {kDIM} _ _.
Arguments _min {kDIM} _.
Arguments _max {kDIM} _.

End closed.

(** [struct circular]: a regular circular axis with [kDIM] bins. *)
Module circular.

Record t (kDIM : Z) : Type := mk {
  _min : value_type;
  _max : value_type
}.

Arguments mk {kDIM} _ _.

(** [guaranteed_range]: a pair of indices; [guaranteed_sequence]: a vector
    of indices. *)
Definition guaranteed_range : Type := (Z * Z)%type.
Definition guaranteed_sequence : Type := list Z.

Definition range {kDIM : Z} (ax : t kDIM) (v : value_type) (nhood : Z)
  : guaranteed_range :=
  (0, 0).

Definition zone {kDIM : Z} (ax : t kDIM) (v : value_type) (nhood : Z)
  : guaranteed_sequence :=
  [].

Section bin.

Variable optional_index_bits : Z.
Variable guaranteed_index_bits : Z.

(** [(v - _min) / (_max - _min) * kDIM]; no finite value when the divisor is
    zero. *)
Definition scaled {kDIM : Z} (ax : t kDIM) (v : value_type)
  : option value_type :=
  if Qeq_bool (_max kDIM ax - _min kDIM ax) 0 then None
  else Some ((v - _min kDIM ax) / (_max kDIM ax - _min kDIM ax)
             * inject_Z kDIM)%Q.

(** [circular::bin]; [kDIM + ibin] and [kDIM - ibin] are sums of an
    [unsigned int] and an [optional_index]. *)
Definition bin {kDIM : Z} (ax : t kDIM) (v : value_type) : option Z :=
  match scaled ax v with
  | None => None
  | Some q =>
      match closed.to_optional_index optional_index_bits q with
      | None => None
      | Some ibin =>
          if (0 <=? ibin) && (ibin <? kDIM)
          then Some (closed.to_guaranteed_index guaranteed_index_bits ibin)
          else if ibin <? 0
          then option_map (closed.to_guaranteed_index guaranteed_index_bits)
                 (closed.mixed_arithmetic optional_index_bits (kDIM + ibin))
          else option_map (closed.to_guaranteed_index guaranteed_index_bits)
                 (closed.mixed_arithmetic optional_index_bits (kDIM - ibin))
      end
  end.

End bin.

End circular.

End axis.

(** ** Concrete tracks and surfaces *)

Module scenario.

Import algebra.

Local Open Scope R_scope.

(** A free vector at the origin moving along the global x axis. *)
Definition along_x : coordinate_base.free_vector :=
  of_rows [[0]; [0]; [0]; [0]; [1]; [0]; [0]; [0]].

(** A free vector at the origin moving along the global z axis. *)
Definition along_z : coordinate_base.free_vector :=
  of_rows [[0]; [0]; [0]; [0]; [0]; [0]; [1]; [0]].

(** A free vector at the origin moving against the global z axis. *)
Definition against_z : coordinate_base.free_vector :=
  of_rows [[0]; [0]; [0]; [0]; [0]; [0]; [-1]; [0]].

(** The bound vector (loc0, loc1, phi, theta, time, qOverP)
    = (1.0, 2.0, 0.3, 1.2, 5.0, 0.01). *)
Definition bound_sample : coordinate_base.bound_vector :=
  of_rows [[1.0]; [2.0]; [0.3]; [1.2]; [5.0]; [0.01]].

End scenario.

(** ** Double precision *)

(** The scalars of the program are IEEE 754 binary64 numbers ([double]).
    Sums, differences and products of doubles are computed with the
    primitive floats.  [std::acos] and [std::sin] are specified by their
    rounding: the double nearest to the exact value. *)
Module binary64.

(** *** The planar frame on doubles *)

Section doubles.

Import PrimFloat.

Local Open Scope float_scope.

Definition point2 : Type := (float * float)%type.
Definition point3 : Type := (float * float * float)%type.
Definition vector3 : Type := point3.

(** Modelled from the spec: [transform3] of the algebra plugin (not among
    the sources), as in module [algebra], on doubles. *)
Record transform3 : Type := mk_transform3 {
  rotation : nat -> nat -> float;
  translation : vector3
}.

Definition identity3 (i j : nat) : float := if (i =? j)%nat then 1 else 0.

Definition rotate (m : nat -> nat -> float) (v : vector3) : vector3 :=
  let '(v0, v1, v2) := v in
  let row (i : nat) := m i 0%nat * v0 + m i 1%nat * v1 + m i 2%nat * v2 in
  (row 0%nat, row 1%nat, row 2%nat).

Definition point_to_global (trf3 : transform3) (p : point3) : point3 :=
  let '(rg0, rg1, rg2) := rotate (rotation trf3) p in
  let '(t0, t1, t2) := translation trf3 in
  (rg0 + t0, rg1 + t1, rg2 + t2).

Definition point_to_local (trf3 : transform3) (p : point3) : point3 :=
  let '(p0, p1, p2) := p in
  let '(t0, t1, t2) := translation trf3 in
  rotate (fun i j => rotation trf3 j i) (p0 - t0, p1 - t1, p2 - t2).

(** [cartesian2::global_to_local] and [cartesian2::local_to_global]. *)
Definition global_to_local (trf3 : transform3) (p : point3) (d : vector3)
  : point2 :=
  let '(local0, local1, _) := point_to_local trf3 p in
  (local0, local1).

Definition local_to_global {mask_t : Type} (trf3 : transform3)
  (mask : mask_t) (p : point2) (d : vector3) : point3 :=
  point_to_global trf3 (fst p, snd p, 0).

End doubles.

(** *** Rounding to a double *)

Local Open Scope R_scope.

Definition pow2 (e : Z) : R := powerRZ 2 e.

(** The finite doubles: a mantissa below [2^53] in absolute value and an
    exponent from -1074 to 971. *)
Definition representable (x : R) : Prop :=
  exists m e : Z,
    (Z.abs m < 2 ^ 53)%Z /\ (-1074 <= e <= 971)%Z /\ x = IZR m * pow2 e.

(** [f] is a double nearest to [x]. *)
Definition nearest (x f : R) : Prop :=
  representable f
  /\ forall g, representable g -> Rabs (f - x) <= Rabs (g - x).

(** The double [0x1.921fb54442d18p+1], printed 3.141592653589793. *)
Definition M_PI : R := 7074237752028440 * pow2 (-51).

(** The double [0x1.1a62633145c07p-53], printed 1.2246467991473532e-16. *)
Definition sin_M_PI : R := 4967757600021511 * pow2 (-105).

(** Modelled from the spec: lines 178 and 182 of [free_to_bound_jacobian]
    on doubles, [theta = getter::theta(dir)] with [getter::theta] the
    [acos] of the z component and [sin_theta = std::sin(theta)], each the
    double nearest to the exact value. *)
Definition sin_theta (dir : algebra.vector3) (s : R) : Prop :=
  exists theta,
    nearest (algebra.getter.theta dir) theta /\ nearest (sin theta) s.

(** Partial sums of [pi / 4 = 2 atan (1/3) + atan (1/7)] as rationals. *)
Fixpoint power (q : Q) (n : nat) : Q :=
  match n with
  | O => 1%Q
  | S k => (q * power q k)%Q
  end.

Definition pi_series_term (i : nat) : Q :=
  ((if Nat.even i then 1 else -1)
   * ((2 * power (1 # 3) (2 * i + 1) + power (1 # 7) (2 * i + 1))
      / inject_Z (Z.of_nat (2 * i + 1))))%Q.

Fixpoint pi_series_sum (n : nat) : Q :=
  match n with
  | O => pi_series_term 0
  | S k => (pi_series_sum k + pi_series_term (S k))%Q
  end.

End binary64.

(** ** Products of matrices and derivatives, to state how the transforms
    compose *)

Module linear.

Import algebra.
Import matrix_actor.

Local Open Scope R_scope.

(** The sum of [term k] over [k < n]. *)
Fixpoint sum_below (n : nat) (term : nat -> scalar) : scalar :=
  match n with
  | O => 0
  | S n' => sum_below n' term + term n'
  end.

Definition mat_mul {ROWS INNER COLS : nat} (A : matrix_type ROWS INNER)
  (B : matrix_type INNER COLS) : matrix_type ROWS COLS :=
  mk_matrix
    (fun i j => sum_below INNER (fun k => element A i k * element B k j)).

Definition identity (SIZE : nat) : matrix_type SIZE SIZE :=
  mk_matrix (fun i j => if (i =? j)%nat then 1 else 0).

(** [J] is the matrix of the partial derivatives of [f] at [x]: entry
    (i, j) is the derivative of row i of [f] in row j of its argument. *)
Definition jacobian_at {INPUTS OUTPUTS : nat}
  (f : matrix_type INPUTS 1 -> matrix_type OUTPUTS 1)
  (x : matrix_type INPUTS 1) (J : matrix_type OUTPUTS INPUTS) : Prop :=
  forall i j, (i < OUTPUTS)%nat -> (j < INPUTS)%nat ->
    derivable_pt_lim (fun h => element (f (set_element x j 0 h)) i 0)
      (element x j 0) (element J i j).

(** The squared length of a 3-vector. *)
Definition norm2 (v : vector3) : scalar :=
  at3 v 0 * at3 v 0 + at3 v 1 * at3 v 1 + at3 v 2 * at3 v 2.

End linear.

(** ** The rays of the navigator test
    ([tests/unit_tests/cuda/navigator_cuda.cpp]) *)

Module navigator_cuda.

Import algebra.

Local Open Scope R_scope.

Section rays.

(** [theta_steps] and [phi_steps] are constants of
    [navigator_cuda_kernel.hpp]; [M_PI] is the real number pi here. *)
Variable theta_steps : nat.
Variable phi_steps : nat.

(** [theta = 0.001 + itheta * (M_PI - 0.001) / theta_steps]. *)
Definition theta (itheta : nat) : scalar :=
  0.001 + INR itheta * (PI - 0.001) / INR theta_steps.

(** [phi = -M_PI + iphi * (2 * M_PI) / phi_steps]. *)
Definition phi (iphi : nat) : scalar :=
  - PI + INR iphi * (2 * PI) / INR phi_steps.

(** [vector3 dir{cos_phi * sin_theta, sin_phi * sin_theta, cos_theta}]. *)
Definition dir (itheta iphi : nat) : vector3 :=
  let sin_theta := sin (theta itheta) in
  let cos_theta := cos (theta itheta) in
  let sin_phi := sin (phi iphi) in
  let cos_phi := cos (phi iphi) in
  (cos_phi * sin_theta, sin_phi * sin_theta, cos_theta).

End rays.

End navigator_cuda.

(** ** The raw bin index of an axis, to state what [bin], [range] and
    [zone] return *)

Module axis_cells.

Import axis.

Local Open Scope Z_scope.

(** The local variable [ibin] of [closed::bin] and [closed::range]. *)
Definition closed_ibin (optional_index_bits : Z) {kDIM : Z}
  (ax : closed.t kDIM) (v : value_type) : option Z :=
  match closed.scaled ax v with
  | None => None
  | Some q => closed.to_optional_index optional_index_bits q
  end.

(** The local variable [ibin] of [circular::bin]. *)
Definition circular_ibin (optional_index_bits : Z) {kDIM : Z}
  (ax : circular.t kDIM) (v : value_type) : option Z :=
  match circular.scaled ax v with
  | None => None
  | Some q => closed.to_optional_index optional_index_bits q
  end.

End axis_cells.

(** ** Concrete axes *)

Module axis_scenario.

Import axis.

(** Axes of 10 bins over [0, 1]. *)
Definition ten_bins : closed.t 10 := closed.mk 0%Q 1%Q.

Definition ten_bins_circular : circular.t 10 := circular.mk 0%Q 1%Q.

End axis_scenario.

(** * Properties *)

(** ** Reading the entries of a matrix built by successive writes *)

Module matrix_facts.

Import algebra.
Import matrix_actor.

Local Open Scope R_scope.

(** Splits a goal [mat_eq A B] into one goal per entry, [rows] by [cols]. *)
(** Evaluates the index arithmetic of the matrix operations and leaves the
    scalars alone. *)
Ltac mat_cbv :=
  cbv beta iota zeta delta
    [coordinate_base.free_to_bound_vector coordinate_base.bound_to_free_vector
     coordinate_base.bound_to_free_jacobian
     coordinate_base.free_to_bound_jacobian_outcomes
     coordinate_base.free_to_path_correction
     element set_element set_block zero block transpose scale of_rows
     outcome values set_outcome set_value set_block_values value is_value
     dot at2 at3 fst snd scalar
     track_helper.pos track_helper.dir track_helper.local
     track_helper.bound_dir
     e_bound_loc0 e_bound_loc1 e_bound_phi e_bound_theta e_bound_time
     e_bound_qoverp e_bound_size
     e_free_pos0 e_free_pos1 e_free_pos2 e_free_time e_free_dir0 e_free_dir1
     e_free_dir2 e_free_qoverp e_free_size
     Nat.eqb Nat.leb Nat.ltb Nat.add Nat.sub andb nth bind];
  cbn [entries outcomes];
  cbv beta iota zeta delta
    [Nat.eqb Nat.leb Nat.ltb Nat.add Nat.sub andb nth].

(** Case analysis on an index [i] below [bound], running [tac] at each of
    its values. *)
Ltac by_index i H bound tac :=
  lazymatch bound with
  | O => exfalso; cbv in H; lia
  | S ?b => destruct i as [|i]; [ tac | by_index i H b tac ]
  end.

Ltac each_entry rows cols :=
  let i := fresh "i" in
  let j := fresh "j" in
  let Hi := fresh "Hi" in
  let Hj := fresh "Hj" in
  intros i j Hi Hj;
  by_index i Hi rows
    ltac:(idtac; by_index j Hj cols ltac:(idtac; mat_cbv)).

Lemma mat_eq_refl {ROWS COLS : nat} (A : matrix_type ROWS COLS) : mat_eq A A.
Proof. intros i j _ _. reflexivity. Qed.

Lemma mat_eq_trans {ROWS COLS : nat} (A B C : matrix_type ROWS COLS) :
  mat_eq A B -> mat_eq B C -> mat_eq A C.
Proof.
  intros HAB HBC i j Hi Hj.
  rewrite (HAB i j Hi Hj). apply HBC; assumption.
Qed.

Lemma element_set_element_same {ROWS COLS : nat} (m : matrix_type ROWS COLS)
  (row col : nat) (v : scalar) :
  element (set_element m row col v) row col = v.
Proof.
  unfold element, set_element. cbn [entries]. now rewrite !Nat.eqb_refl.
Qed.

Lemma element_set_element_other {ROWS COLS : nat} (m : matrix_type ROWS COLS)
  (row col i j : nat) (v : scalar) :
  (i, j) <> (row, col) ->
  element (set_element m row col v) i j = element m i j.
Proof.
  intros Hne. unfold element, set_element. cbn [entries].
  destruct (Nat.eqb_spec i row) as [-> | _]; [ | reflexivity ].
  destruct (Nat.eqb_spec j col) as [-> | _]; [ | reflexivity ].
  now contradiction Hne.
Qed.

Lemma element_set_block_inside {R0 C0 ROWS COLS : nat}
  (m : matrix_type R0 C0) (b : matrix_type ROWS COLS) (row col i j : nat) :
  (i < ROWS)%nat -> (j < COLS)%nat ->
  element (set_block ROWS COLS m b row col) (row + i) (col + j) = element b i j.
Proof.
  intros Hi Hj. unfold element, set_block. cbn [entries].
  replace (row + i - row)%nat with i by lia.
  replace (col + j - col)%nat with j by lia.
  destruct (Nat.leb_spec row (row + i)); [ | lia ].
  destruct (Nat.ltb_spec (row + i) (row + ROWS)); [ | lia ].
  destruct (Nat.leb_spec col (col + j)); [ | lia ].
  destruct (Nat.ltb_spec (col + j) (col + COLS)); [ | lia ].
  reflexivity.
Qed.

Lemma element_block {R0 C0 : nat} (ROWS COLS : nat) (m : matrix_type R0 C0)
  (row col i j : nat) :
  element (block ROWS COLS m row col) i j = element m (row + i) (col + j).
Proof. reflexivity. Qed.

Lemma element_transpose {ROWS COLS : nat} (m : matrix_type ROWS COLS)
  (i j : nat) :
  element (transpose m) i j = element m j i.
Proof. reflexivity. Qed.

(** [all_below n ok] holds when [ok] does at every index below [n]. *)
Lemma all_below_true (n : nat) (ok : nat -> bool) :
  all_below n ok = true <-> forall i, (i < n)%nat -> ok i = true.
Proof.
  induction n as [| n IH]; cbn [all_below].
  - split; [ intros _ i Hi; lia | reflexivity ].
  - rewrite Bool.andb_true_iff, IH. split.
    + intros [Hbelow Hn] i Hi.
      destruct (Nat.eq_dec i n) as [-> | Hne];
        [ exact Hn | apply Hbelow; lia ].
    + intros H. split; [ intros i Hi; apply H; lia | apply H; lia ].
Qed.

(** A matrix of outcomes all of whose entries are values is returned as the
    matrix of these values. *)
Lemma finite_values {ROWS COLS : nat} (m : outcome_matrix ROWS COLS) :
  (forall i j, (i < ROWS)%nat -> (j < COLS)%nat ->
     is_value (outcome m i j) = true) ->
  finite m = Ok (mk_matrix (fun i j => value (outcome m i j))).
Proof.
  intros H. unfold finite.
  replace (all_below ROWS
             (fun i => all_below COLS (fun j => is_value (outcomes m i j))))
    with true; [ reflexivity | ].
  symmetry. apply all_below_true. intros i Hi.
  apply all_below_true. intros j Hj. exact (H i j Hi Hj).
Qed.

(** One entry that is the outcome of a division by zero and no matrix of
    numbers is returned. *)
Lemma finite_div_by_zero {ROWS COLS : nat} (m : outcome_matrix ROWS COLS)
  (i j : nat) :
  (i < ROWS)%nat -> (j < COLS)%nat -> outcome m i j = DivByZero ->
  finite m = DivByZero.
Proof.
  intros Hi Hj Hz. unfold finite.
  destruct (all_below ROWS
              (fun i => all_below COLS (fun j => is_value (outcomes m i j))))
    eqn:Hall; [ | reflexivity ].
  rewrite all_below_true in Hall. specialize (Hall i Hi).
  rewrite all_below_true in Hall. specialize (Hall j Hj).
  unfold outcome in Hz. rewrite Hz in Hall. discriminate Hall.
Qed.

(** A returned matrix holds, entry by entry, the values of the outcomes. *)
Lemma finite_entries {ROWS COLS : nat} (m : outcome_matrix ROWS COLS)
  (J : matrix_type ROWS COLS) (i j : nat) :
  finite m = Ok J -> (i < ROWS)%nat -> (j < COLS)%nat ->
  outcome m i j = Ok (element J i j).
Proof.
  intros HJ Hi Hj. unfold finite in HJ.
  destruct (all_below ROWS
              (fun i => all_below COLS (fun j => is_value (outcomes m i j))))
    eqn:Hall; [ | discriminate HJ ].
  injection HJ as <-.
  rewrite all_below_true in Hall. specialize (Hall i Hi).
  rewrite all_below_true in Hall. specialize (Hall j Hj).
  unfold outcome, element. cbn [entries].
  destruct (outcomes m i j); [ reflexivity | discriminate Hall ].
Qed.

End matrix_facts.

(** ** Angles of a direction *)

Module angle_facts.

Import algebra.

Local Open Scope R_scope.

(** [atan2] on the axes. *)
Example atan2_negative_x_axis : atan2 0 (-1) = PI.
Proof.
  unfold atan2.
  destruct (Rlt_dec 0 (-1)) as [H | _]; [ lra | ].
  destruct (Rlt_dec (-1) 0) as [_ | H]; [ | lra ].
  destruct (Rle_dec 0 0) as [_ | H]; [ | lra ].
  replace (0 / -1) with 0 by lra. rewrite atan_0. lra.
Qed.

Example atan2_positive_y_axis : atan2 1 0 = PI / 2.
Proof.
  unfold atan2.
  destruct (Rlt_dec 0 0) as [H | _]; [ lra | ].
  destruct (Rlt_dec 0 1) as [_ | H]; [ reflexivity | lra ].
Qed.

Lemma cos_pos_range (x : R) :
  - PI < x <= PI -> 0 < cos x -> - (PI / 2) < x < PI / 2.
Proof.
  intros [Hlo Hhi] Hc. pose proof PI_RGT_0 as Hpi. split.
  - destruct (Rlt_le_dec (- (PI / 2)) x) as [H | H]; [ exact H | exfalso ].
    assert (cos (- x) <= 0) by (apply cos_le_0; lra).
    rewrite cos_neg in *. lra.
  - destruct (Rlt_le_dec x (PI / 2)) as [H | H]; [ exact H | exfalso ].
    assert (cos x <= 0) by (apply cos_le_0; lra). lra.
Qed.

Lemma cos_neg_sin_nonneg_range (x : R) :
  - PI < x <= PI -> cos x < 0 -> 0 <= sin x -> PI / 2 < x <= PI.
Proof.
  intros [Hlo Hhi] Hc Hs. pose proof PI_RGT_0 as Hpi. split; [ | exact Hhi ].
  destruct (Rlt_le_dec (PI / 2) x) as [H | H]; [ exact H | exfalso ].
  destruct (Rlt_le_dec x (- (PI / 2))) as [H' | H'].
  - assert (0 < sin (- x)) by (apply sin_gt_0; lra).
    rewrite sin_neg in *. lra.
  - assert (0 <= cos x) by (apply cos_ge_0; lra). lra.
Qed.

Lemma cos_neg_sin_neg_range (x : R) :
  - PI < x <= PI -> cos x < 0 -> sin x < 0 -> - PI < x < - (PI / 2).
Proof.
  intros [Hlo Hhi] Hc Hs. pose proof PI_RGT_0 as Hpi. split; [ exact Hlo | ].
  destruct (Rlt_le_dec x (- (PI / 2))) as [H | H]; [ exact H | exfalso ].
  destruct (Rlt_le_dec (PI / 2) x) as [H' | H'].
  - assert (0 <= sin x) by (apply sin_ge_0; lra). lra.
  - assert (0 <= cos x) by (apply cos_ge_0; lra). lra.
Qed.

Lemma cos_zero_range (x : R) :
  - PI < x <= PI -> cos x = 0 ->
  (x = PI / 2 /\ sin x = 1) \/ (x = - (PI / 2) /\ sin x = -1).
Proof.
  intros [Hlo Hhi] Hc. pose proof PI_RGT_0 as Hpi.
  destruct (Rle_lt_dec 0 x) as [H | H].
  - left. destruct (cos_eq_0_2PI_0 x H ltac:(lra) Hc) as [E | E]; [ | lra ].
    split; [ exact E | ]. rewrite E. apply sin_PI2.
  - right. assert (Hc' : cos (- x) = 0) by (now rewrite cos_neg).
    destruct (cos_eq_0_2PI_0 (- x) ltac:(lra) ltac:(lra) Hc') as [E | E];
      [ | lra ].
    assert (Ex : x = - (PI / 2)) by lra.
    split; [ exact Ex | ]. rewrite Ex, sin_neg, sin_PI2. lra.
Qed.

Lemma atan2_polar (r x : R) :
  0 < r -> - PI < x <= PI -> atan2 (r * sin x) (r * cos x) = x.
Proof.
  intros Hr Hx. pose proof PI_RGT_0 as Hpi. unfold atan2.
  destruct (Rlt_dec 0 (r * cos x)) as [Hpos | Hnpos].
  - assert (Hc : 0 < cos x) by nra.
    replace (r * sin x / (r * cos x)) with (tan x)
      by (unfold tan; field; lra).
    apply atan_tan. now apply cos_pos_range.
  - destruct (Rlt_dec (r * cos x) 0) as [Hneg | Hnneg].
    + assert (Hc : cos x < 0) by nra.
      destruct (Rle_dec 0 (r * sin x)) as [Hy | Hy].
      * assert (Hs : 0 <= sin x) by nra.
        pose proof (cos_neg_sin_nonneg_range x Hx Hc Hs) as Hrange.
        replace (r * sin x / (r * cos x)) with (tan (x - PI)).
        { rewrite atan_tan by lra. lra. }
        unfold tan.
        replace (sin (x - PI)) with (- sin x)
          by (pose proof (neg_sin (x - PI)) as E;
              replace (x - PI + PI) with x in E by lra; lra).
        replace (cos (x - PI)) with (- cos x)
          by (pose proof (neg_cos (x - PI)) as E;
              replace (x - PI + PI) with x in E by lra; lra).
        field. lra.
      * assert (Hs : sin x < 0) by nra.
        pose proof (cos_neg_sin_neg_range x Hx Hc Hs) as Hrange.
        replace (r * sin x / (r * cos x)) with (tan (x + PI)).
        { rewrite atan_tan by lra. lra. }
        unfold tan. rewrite neg_sin, neg_cos. field. lra.
    + assert (Hc : cos x = 0) by nra.
      destruct (cos_zero_range x Hx Hc) as [[Ex Es] | [Ex Es]]; rewrite Es.
      * destruct (Rlt_dec 0 (r * 1)) as [_ | N]; [ lra | lra ].
      * destruct (Rlt_dec 0 (r * -1)) as [P | _]; [ lra | ].
        destruct (Rlt_dec (r * -1) 0) as [_ | N]; [ lra | lra ].
Qed.

Lemma sin_period_Z (x : R) (k : Z) : sin (x + 2 * IZR k * PI) = sin x.
Proof.
  destruct (Z_le_gt_dec 0 k) as [H | H].
  - rewrite <- (Z2Nat.id k H), <- INR_IZR_INZ. apply sin_period.
  - rewrite <- (sin_period (x + 2 * IZR k * PI) (Z.to_nat (- k))).
    f_equal. rewrite INR_IZR_INZ, Z2Nat.id by lia. rewrite opp_IZR. ring.
Qed.

Lemma cos_period_Z (x : R) (k : Z) : cos (x + 2 * IZR k * PI) = cos x.
Proof.
  destruct (Z_le_gt_dec 0 k) as [H | H].
  - rewrite <- (Z2Nat.id k H), <- INR_IZR_INZ. apply cos_period.
  - rewrite <- (cos_period (x + 2 * IZR k * PI) (Z.to_nat (- k))).
    f_equal. rewrite INR_IZR_INZ, Z2Nat.id by lia. rewrite opp_IZR. ring.
Qed.

Lemma principal_angle (x : R) :
  exists k : Z, - PI < x + 2 * IZR k * PI <= PI.
Proof.
  pose proof PI_RGT_0 as Hpi.
  exists (Int_part ((PI - x) / (2 * PI))).
  destruct (base_Int_part ((PI - x) / (2 * PI))) as [Hle Hgt].
  set (k := IZR (Int_part ((PI - x) / (2 * PI)))) in *.
  assert (E : (PI - x) / (2 * PI) * (2 * PI) = PI - x) by (field; lra).
  split.
  - assert ((PI - x) / (2 * PI) * (2 * PI) < (k + 1) * (2 * PI)).
    { apply Rmult_lt_compat_r; lra. }
    lra.
  - assert (k * (2 * PI) <= (PI - x) / (2 * PI) * (2 * PI)).
    { apply Rmult_le_compat_r; lra. }
    lra.
Qed.

Lemma principal_angle_unique (x : R) (k : Z) :
  - PI < x <= PI -> - PI < x + 2 * IZR k * PI <= PI -> k = 0%Z.
Proof.
  intros Hx Hk. pose proof PI_RGT_0 as Hpi.
  assert (H1 : -1 < IZR k) by nra.
  assert (H2 : IZR k < 1) by nra.
  apply lt_IZR in H1. apply lt_IZR in H2. lia.
Qed.

End angle_facts.

(** ** The planar frame *)

Module cartesian2_facts.

Import algebra.
Import matrix_actor.
Import matrix_facts.

Local Open Scope R_scope.

Section planar.

Context {mask_t : Type}.

(** The reference frame of the planar variant is the rotation of the
    transform, whatever the position and the direction. *)
Lemma reference_frame_rotation (trf3 : transform3) (mask : mask_t)
  (pos : point3) (dir : vector3) :
  cartesian2.reference_frame trf3 mask pos dir = rotation trf3.
Proof. reflexivity. Qed.

(** The tangent block holds columns 0 and 1 of the rotation. *)
Lemma bound_pos_to_free_pos_derivative_columns (trf3 : transform3)
  (mask : mask_t) (pos : point3) (dir : vector3) (i j : nat) :
  element (cartesian2.bound_pos_to_free_pos_derivative trf3 mask pos dir) i j
  = element (rotation trf3) i j.
Proof. reflexivity. Qed.

(** C6: for the planar variant, [free_pos_to_bound_pos_derivative] is the
    transpose of [bound_pos_to_free_pos_derivative], at every transform,
    shape descriptor, position and direction: the 3x2 block holds columns
    0-1 of the reference frame and the 2x3 block holds them as rows. *)
Theorem free_pos_to_bound_pos_derivative_transpose (trf3 : transform3)
  (mask : mask_t) (pos : point3) (dir : vector3) :
  let frame := cartesian2.reference_frame trf3 mask pos dir in
  cartesian2.free_pos_to_bound_pos_derivative trf3 mask pos dir
  = transpose (cartesian2.bound_pos_to_free_pos_derivative trf3 mask pos dir)
  /\ mat_eq (cartesian2.bound_pos_to_free_pos_derivative trf3 mask pos dir)
       (of_rows
          [[element frame 0 0; element frame 0 1];
           [element frame 1 0; element frame 1 1];
           [element frame 2 0; element frame 2 1]])
  /\ mat_eq (cartesian2.free_pos_to_bound_pos_derivative trf3 mask pos dir)
       (of_rows
          [[element frame 0 0; element frame 1 0; element frame 2 0];
           [element frame 0 1; element frame 1 1; element frame 2 1]]).
Proof.
  cbv zeta. split; [ | split ].
  - unfold cartesian2.free_pos_to_bound_pos_derivative,
      cartesian2.bound_pos_to_free_pos_derivative, transpose, block.
    cbn [entries]. reflexivity.
  - unfold mat_eq. each_entry 3%nat 2%nat; reflexivity.
  - unfold mat_eq. each_entry 2%nat 3%nat; reflexivity.
Qed.

(** The rotation of a rigid transform, read column against column. *)
Lemma rigid_columns (trf3 : transform3) (i j : nat) :
  rigid trf3 -> (i < 3)%nat -> (j < 3)%nat ->
  element (rotation trf3) 0 i * element (rotation trf3) 0 j
  + element (rotation trf3) 1 i * element (rotation trf3) 1 j
  + element (rotation trf3) 2 i * element (rotation trf3) 2 j
  = if (i =? j)%nat then 1 else 0.
Proof. intros H Hi Hj. exact (H i j Hi Hj). Qed.

(** A point carried to the global frame and back is unchanged. *)
Lemma point_to_local_global (trf3 : transform3) (p : point3) :
  rigid trf3 -> point_to_local trf3 (point_to_global trf3 p) = p.
Proof.
  intros H. destruct p as [[x y] z].
  pose proof (rigid_columns trf3 0 0 H ltac:(lia) ltac:(lia)) as H00.
  pose proof (rigid_columns trf3 0 1 H ltac:(lia) ltac:(lia)) as H01.
  pose proof (rigid_columns trf3 0 2 H ltac:(lia) ltac:(lia)) as H02.
  pose proof (rigid_columns trf3 1 1 H ltac:(lia) ltac:(lia)) as H11.
  pose proof (rigid_columns trf3 1 2 H ltac:(lia) ltac:(lia)) as H12.
  pose proof (rigid_columns trf3 2 2 H ltac:(lia) ltac:(lia)) as H22.
  cbn in H00, H01, H02, H11, H12, H22.
  destruct trf3 as [r [[t0 t1] t2]].
  unfold point_to_local, point_to_global, rotate, element in *.
  cbn in *.
  set (a00 := entries r 0 0) in *. set (a01 := entries r 0 1) in *.
  set (a02 := entries r 0 2) in *. set (a10 := entries r 1 0) in *.
  set (a11 := entries r 1 1) in *. set (a12 := entries r 1 2) in *.
  set (a20 := entries r 2 0) in *. set (a21 := entries r 2 1) in *.
  set (a22 := entries r 2 2) in *.
  apply f_equal2; [ apply f_equal2 | ].
  - transitivity
      (x * (a00 * a00 + a10 * a10 + a20 * a20)
       + y * (a00 * a01 + a10 * a11 + a20 * a21)
       + z * (a00 * a02 + a10 * a12 + a20 * a22)); [ ring | ].
    rewrite H00, H01, H02. ring.
  - transitivity
      (x * (a00 * a01 + a10 * a11 + a20 * a21)
       + y * (a01 * a01 + a11 * a11 + a21 * a21)
       + z * (a01 * a02 + a11 * a12 + a21 * a22)); [ ring | ].
    rewrite H01, H11, H12. ring.
  - transitivity
      (x * (a00 * a02 + a10 * a12 + a20 * a22)
       + y * (a01 * a02 + a11 * a12 + a21 * a22)
       + z * (a02 * a02 + a12 * a12 + a22 * a22)); [ ring | ].
    rewrite H02, H12, H22. ring.
Qed.

(** The planar frame: a local point carried to the global frame and back. *)
Lemma global_to_local_inverse (trf3 : transform3) (mask : mask_t)
  (p : point2) (d d' : vector3) :
  rigid trf3 ->
  cartesian2.global_to_local trf3
    (cartesian2.local_to_global trf3 mask p d) d' = p.
Proof.
  intros H. unfold cartesian2.global_to_local, cartesian2.local_to_global.
  rewrite (point_to_local_global trf3 _ H).
  destruct p as [p0 p1]. reflexivity.
Qed.


End planar.

Lemma rigid_identity_transform : rigid identity_transform.
Proof.
  intros i j Hi Hj.
  by_index i Hi 3%nat
    ltac:(idtac; by_index j Hj 3%nat ltac:(idtac; cbn; lra)).
Qed.

End cartesian2_facts.

(** ** The bound/free transform engine *)

Module coordinate_base_facts.

Import algebra.
Import matrix_actor.
Import matrix_facts.

Local Open Scope R_scope.

(** The division returns the quotient exactly when the divisor is not
    zero. *)
Lemma div_nonzero (a b : scalar) : b <> 0 -> div a b = Ok (a / b).
Proof.
  intros Hb. unfold div. destruct (Req_dec_T b 0) as [E | _];
    [ contradiction | reflexivity ].
Qed.

Lemma div_zero (a : scalar) : div a 0 = DivByZero.
Proof.
  unfold div. destruct (Req_dec_T 0 0) as [_ | N];
    [ reflexivity | now contradiction N ].
Qed.

Section any_frame.

Context {mask_t : Type} {D : Derived.t mask_t}.

(** The 8x6 Jacobian, entry by entry, over any frame variant. *)
Lemma bound_to_free_jacobian_entries (trf3 : transform3) (mask : mask_t)
  (bound_vec : coordinate_base.bound_vector) :
  let theta := element bound_vec e_bound_theta 0 in
  let phi := element bound_vec e_bound_phi 0 in
  let d :=
    Derived.bound_pos_to_free_pos_derivative trf3 mask
      (track_helper.pos bound_vec) (track_helper.bound_dir bound_vec) in
  mat_eq (coordinate_base.bound_to_free_jacobian trf3 mask bound_vec)
    (of_rows
       [[element d 0 0; element d 0 1; 0; 0; 0; 0];
        [element d 1 0; element d 1 1; 0; 0; 0; 0];
        [element d 2 0; element d 2 1; 0; 0; 0; 0];
        [0; 0; 0; 0; 1; 0];
        [0; 0; - sin theta * sin phi; cos theta * cos phi; 0; 0];
        [0; 0; sin theta * cos phi; cos theta * sin phi; 0; 0];
        [0; 0; 0; - sin theta; 0; 0];
        [0; 0; 0; 0; 0; 1]]).
Proof.
  cbv zeta. unfold mat_eq.
  each_entry 8%nat 6%nat; try reflexivity; try ring.
Qed.

(** The outcomes of the 6x8 Jacobian, entry by entry, over any frame
    variant: the two entries of the phi row are the quotients by
    [sin theta], every other entry is a value. *)
Lemma free_to_bound_jacobian_outcomes_entries (trf3 : transform3)
  (mask : mask_t) (free_vec : coordinate_base.free_vector) (i j : nat) :
  let dir := track_helper.dir free_vec in
  let theta := getter.theta dir in
  let phi := getter.phi dir in
  let d :=
    Derived.free_pos_to_bound_pos_derivative trf3 mask
      (track_helper.pos free_vec) dir in
  let written :=
    coordinate_base.free_to_bound_jacobian_outcomes trf3 mask free_vec in
  (i < e_bound_size)%nat -> (j < e_free_size)%nat ->
  outcome written i j
  = if (i =? e_bound_phi)%nat && (j =? e_free_dir0)%nat
    then div (-1 * sin phi) (sin theta)
    else if (i =? e_bound_phi)%nat && (j =? e_free_dir1)%nat
    then div (cos phi) (sin theta)
    else
      Ok (element
            (of_rows (ROWS := e_bound_size) (COLS := e_free_size)
               [[element d 0 0; element d 0 1; element d 0 2; 0; 0; 0; 0; 0];
                [element d 1 0; element d 1 1; element d 1 2; 0; 0; 0; 0; 0];
                [0; 0; 0; 0; 0; 0; 0; 0];
                [0; 0; 0; 0;
                 cos phi * cos theta; sin phi * cos theta; - sin theta; 0];
                [0; 0; 0; 1; 0; 0; 0; 0];
                [0; 0; 0; 0; 0; 0; 0; 1]]) i j).
Proof.
  cbv zeta. intros Hi Hj.
  by_index i Hi 6%nat
    ltac:(idtac; by_index j Hj 8%nat ltac:(idtac; mat_cbv));
    try reflexivity; f_equal; ring.
Qed.

(** The 6x8 Jacobian, entry by entry, over any frame variant, when the sine
    of the polar angle is not zero. *)
Lemma free_to_bound_jacobian_entries (trf3 : transform3) (mask : mask_t)
  (free_vec : coordinate_base.free_vector) :
  let dir := track_helper.dir free_vec in
  let theta := getter.theta dir in
  let phi := getter.phi dir in
  let d :=
    Derived.free_pos_to_bound_pos_derivative trf3 mask
      (track_helper.pos free_vec) dir in
  sin theta <> 0 ->
  exists J,
    coordinate_base.free_to_bound_jacobian trf3 mask free_vec = Ok J
    /\ mat_eq J
         (of_rows
            [[element d 0 0; element d 0 1; element d 0 2; 0; 0; 0; 0; 0];
             [element d 1 0; element d 1 1; element d 1 2; 0; 0; 0; 0; 0];
             [0; 0; 0; 0; - sin phi / sin theta; cos phi / sin theta; 0; 0];
             [0; 0; 0; 0;
              cos phi * cos theta; sin phi * cos theta; - sin theta; 0];
             [0; 0; 0; 1; 0; 0; 0; 0];
             [0; 0; 0; 0; 0; 0; 0; 1]]).
Proof.
  cbv zeta. intros Hs.
  unfold coordinate_base.free_to_bound_jacobian.
  eexists. split.
  - apply finite_values. intros i j Hi Hj.
    rewrite (free_to_bound_jacobian_outcomes_entries trf3 mask free_vec
               i j Hi Hj).
    rewrite !(div_nonzero _ _ Hs).
    destruct ((i =? e_bound_phi)%nat && (j =? e_free_dir0)%nat);
      [ reflexivity | ].
    destruct ((i =? e_bound_phi)%nat && (j =? e_free_dir1)%nat);
      reflexivity.
  - intros i j Hi Hj. cbn [entries].
    rewrite (free_to_bound_jacobian_outcomes_entries trf3 mask free_vec
               i j Hi Hj).
    rewrite !(div_nonzero _ _ Hs).
    by_index i Hi 6%nat
      ltac:(idtac; by_index j Hj 8%nat ltac:(idtac; mat_cbv));
      try reflexivity; field; exact Hs.
Qed.

(** Without a zero divisor the Jacobian is returned; with one it is not. *)
Lemma free_to_bound_jacobian_defined (trf3 : transform3) (mask : mask_t)
  (free_vec : coordinate_base.free_vector) :
  sin (getter.theta (track_helper.dir free_vec)) <> 0 <->
  exists J, coordinate_base.free_to_bound_jacobian trf3 mask free_vec = Ok J.
Proof.
  split.
  - intros Hs.
    destruct (free_to_bound_jacobian_entries trf3 mask free_vec Hs)
      as [J [HJ _]].
    now exists J.
  - intros [J HJ] Hs. unfold coordinate_base.free_to_bound_jacobian in HJ.
    rewrite (finite_div_by_zero _ e_bound_phi e_free_dir0) in HJ;
      [ discriminate HJ | cbv; lia | cbv; lia | ].
    rewrite free_to_bound_jacobian_outcomes_entries by (cbv; lia).
    cbn [Nat.eqb e_bound_phi e_free_dir0 andb].
    rewrite Hs. apply div_zero.
Qed.

(** The 1x8 path correction, entry by entry, over any frame variant. *)
Lemma free_to_path_correction_entries (trf3 : transform3) (mask : mask_t)
  (free_vec : coordinate_base.free_vector) :
  let dir := track_helper.dir free_vec in
  let frame :=
    Derived.reference_frame trf3 mask (track_helper.pos free_vec) dir in
  let dz := dot (block 3 1 frame 0 2) dir in
  dz <> 0 ->
  exists M,
    coordinate_base.free_to_path_correction trf3 mask free_vec = Ok M
    /\ mat_eq M
         (of_rows
            [[-1 / dz * element frame 0 2; -1 / dz * element frame 1 2;
              -1 / dz * element frame 2 2; 0; 0; 0; 0; 0]]).
Proof.
  cbv zeta. intros Hdz.
  unfold coordinate_base.free_to_path_correction.
  rewrite (div_nonzero _ _ Hdz). cbn [bind].
  eexists. split; [ reflexivity | ].
  unfold mat_eq.
  each_entry 1%nat 8%nat; reflexivity.
Qed.

End any_frame.

End coordinate_base_facts.

(** ** The transform engine over the planar frame *)

Module planar_facts.

Import algebra.
Import matrix_actor.
Import matrix_facts.
Import coordinate_base_facts.

Local Open Scope R_scope.

(** Unfolds the planar frame and the transform under the engine. *)
Ltac planar_cbv :=
  mat_cbv;
  cbv beta iota zeta delta
    [cartesian2.frame Derived.global_to_local Derived.local_to_global
     Derived.reference_frame Derived.bound_pos_to_free_pos_derivative
     Derived.free_pos_to_bound_pos_derivative
     cartesian2.global_to_local cartesian2.local_to_global cartesian2.call2
     cartesian2.call3 cartesian2.reference_frame
     cartesian2.bound_pos_to_free_pos_derivative
     cartesian2.free_pos_to_bound_pos_derivative
     point_to_global point_to_local rotate rotation translation
     identity_transform identity3 getter.theta getter.phi];
  mat_cbv.

Section planar.

Context {mask_t : Type}.

(** C1: over the planar frame, [bound_to_free_jacobian] is the zero 8x6
    matrix overwritten with: columns 0-1 of the rotation (the derivative
    block of the variant) in the position rows, 1 at (time, time), the
    derivatives of the direction by phi and theta in the direction rows, and
    1 at (qOverP, qOverP). *)
Theorem bound_to_free_jacobian_planar (trf3 : transform3) (mask : mask_t)
  (bound_vec : coordinate_base.bound_vector) :
  let theta := element bound_vec e_bound_theta 0 in
  let phi := element bound_vec e_bound_phi 0 in
  let r := rotation trf3 in
  (forall (pos : point3) (dir : vector3),
     mat_eq (cartesian2.bound_pos_to_free_pos_derivative trf3 mask pos dir)
       (of_rows
          [[element r 0 0; element r 0 1];
           [element r 1 0; element r 1 1];
           [element r 2 0; element r 2 1]]))
  /\ mat_eq
       (coordinate_base.bound_to_free_jacobian (D := cartesian2.frame mask_t)
          trf3 mask bound_vec)
       (of_rows
          [[element r 0 0; element r 0 1; 0; 0; 0; 0];
           [element r 1 0; element r 1 1; 0; 0; 0; 0];
           [element r 2 0; element r 2 1; 0; 0; 0; 0];
           [0; 0; 0; 0; 1; 0];
           [0; 0; - sin theta * sin phi; cos theta * cos phi; 0; 0];
           [0; 0; sin theta * cos phi; cos theta * sin phi; 0; 0];
           [0; 0; 0; - sin theta; 0; 0];
           [0; 0; 0; 0; 0; 1]]).
Proof.
  cbv zeta. split.
  - intros pos dir. unfold mat_eq.
    each_entry 3%nat 2%nat; reflexivity.
  - eapply mat_eq_trans;
      [ exact (bound_to_free_jacobian_entries trf3 mask bound_vec) | ].
    unfold mat_eq. each_entry 8%nat 6%nat; reflexivity.
Qed.

(** C2: over the planar frame and for a direction whose polar angle has a
    nonzero sine, [free_to_bound_jacobian] returns the zero 6x8 matrix
    overwritten with: the transposed columns 0-1 of the rotation (the
    derivative block of the variant) in the position columns, 1 at
    (time, time), the derivatives of phi and theta by the direction, and 1
    at (qOverP, qOverP). *)
Theorem free_to_bound_jacobian_planar (trf3 : transform3) (mask : mask_t)
  (free_vec : coordinate_base.free_vector) :
  let dir := track_helper.dir free_vec in
  let theta := getter.theta dir in
  let phi := getter.phi dir in
  let r := rotation trf3 in
  sin theta <> 0 ->
  mat_eq
    (cartesian2.free_pos_to_bound_pos_derivative trf3 mask
       (track_helper.pos free_vec) dir)
    (of_rows
       [[element r 0 0; element r 1 0; element r 2 0];
        [element r 0 1; element r 1 1; element r 2 1]])
  /\ exists J,
       coordinate_base.free_to_bound_jacobian (D := cartesian2.frame mask_t)
         trf3 mask free_vec = Ok J
       /\ mat_eq J
            (of_rows
               [[element r 0 0; element r 1 0; element r 2 0; 0; 0; 0; 0; 0];
                [element r 0 1; element r 1 1; element r 2 1; 0; 0; 0; 0; 0];
                [0; 0; 0; 0;
                 - sin phi / sin theta; cos phi / sin theta; 0; 0];
                [0; 0; 0; 0;
                 cos phi * cos theta; sin phi * cos theta; - sin theta; 0];
                [0; 0; 0; 1; 0; 0; 0; 0];
                [0; 0; 0; 0; 0; 0; 0; 1]]).
Proof.
  cbv zeta. intros Hs. split.
  - unfold mat_eq. each_entry 2%nat 3%nat; reflexivity.
  - destruct (free_to_bound_jacobian_entries (D := cartesian2.frame mask_t)
                trf3 mask free_vec Hs) as [J [HJ Hentries]].
    exists J. split; [ exact HJ | ].
    eapply mat_eq_trans; [ exact Hentries | ].
    unfold mat_eq. each_entry 6%nat 8%nat; reflexivity.
Qed.

(** C3: over the planar frame, with [n] column 2 of the reference frame (the
    rotation) and [dz = n . dir] not zero, [free_to_path_correction] returns
    the 1x8 row whose position entries are [(-1/dz) n] and whose other five
    entries are zero. *)
Theorem free_to_path_correction_planar (trf3 : transform3) (mask : mask_t)
  (free_vec : coordinate_base.free_vector) :
  let dir := track_helper.dir free_vec in
  let frame :=
    cartesian2.reference_frame trf3 mask (track_helper.pos free_vec) dir in
  let n0 := element frame 0 2 in
  let n1 := element frame 1 2 in
  let n2 := element frame 2 2 in
  let dz := n0 * at3 dir 0 + n1 * at3 dir 1 + n2 * at3 dir 2 in
  dz <> 0 ->
  exists M,
    coordinate_base.free_to_path_correction (D := cartesian2.frame mask_t)
      trf3 mask free_vec = Ok M
    /\ mat_eq M
         (of_rows
            [[-1 / dz * n0; -1 / dz * n1; -1 / dz * n2; 0; 0; 0; 0; 0]]).
Proof.
  cbv zeta. intros Hdz.
  exact (free_to_path_correction_entries (D := cartesian2.frame mask_t)
           trf3 mask free_vec Hdz).
Qed.

(** C8: the identity transform and the bound vector
    (1.0, 2.0, 0.3, 1.2, 5.0, 0.01) give the free vector with position
    (1, 2, 0), time 5, direction
    (sin 1.2 cos 0.3, sin 1.2 sin 0.3, cos 1.2) and qOverP 0.01. *)
Theorem bound_to_free_vector_scenario (mask : mask_t) :
  mat_eq
    (coordinate_base.bound_to_free_vector (D := cartesian2.frame mask_t)
       identity_transform mask scenario.bound_sample)
    (of_rows
       [[1.0]; [2.0]; [0.0]; [5.0];
        [sin 1.2 * cos 0.3]; [sin 1.2 * sin 0.3]; [cos 1.2]; [0.01]]).
Proof.
  unfold mat_eq, scenario.bound_sample. intros i j Hi Hj.
  by_index i Hi 8%nat
    ltac:(idtac; by_index j Hj 1%nat ltac:(idtac; planar_cbv));
    try reflexivity; lra.
Qed.

End planar.

Section any_frame.

Context {mask_t : Type} {D : Derived.t mask_t}.

(** C7: with the polar angle strictly between 0 and pi the divisor
    [sin theta] of the two divisions of [free_to_bound_jacobian] is not zero,
    each entry of the phi row is its quotient and the matrix is returned.
    When [sin theta] is zero, as it is for the polar angle 0 (and, the
    arithmetic being exact, pi), each of the two entries of the phi row is
    the outcome of the division by zero itself, no value is put in its
    place, and every other entry is written as for any other direction. *)
Theorem free_to_bound_jacobian_poles (trf3 : transform3) (mask : mask_t)
  (free_vec : coordinate_base.free_vector) :
  let dir := track_helper.dir free_vec in
  let theta := getter.theta dir in
  let phi := getter.phi dir in
  let d :=
    Derived.free_pos_to_bound_pos_derivative trf3 mask
      (track_helper.pos free_vec) dir in
  let written :=
    coordinate_base.free_to_bound_jacobian_outcomes trf3 mask free_vec in
  (0 < theta < PI ->
   sin theta <> 0
   /\ outcome written e_bound_phi e_free_dir0
      = Ok (-1 * sin phi / sin theta)
   /\ outcome written e_bound_phi e_free_dir1 = Ok (cos phi / sin theta)
   /\ exists J,
        coordinate_base.free_to_bound_jacobian trf3 mask free_vec = Ok J)
  /\ (theta = 0 \/ theta = PI -> sin theta = 0)
  /\ (sin theta = 0 ->
      outcome written e_bound_phi e_free_dir0 = DivByZero
      /\ outcome written e_bound_phi e_free_dir1 = DivByZero
      /\ (forall i j, (i < e_bound_size)%nat -> (j < e_free_size)%nat ->
            (i, j) <> (e_bound_phi, e_free_dir0) ->
            (i, j) <> (e_bound_phi, e_free_dir1) ->
            outcome written i j
            = Ok (element
                    (of_rows (ROWS := e_bound_size) (COLS := e_free_size)
                       [[element d 0 0; element d 0 1; element d 0 2;
                         0; 0; 0; 0; 0];
                        [element d 1 0; element d 1 1; element d 1 2;
                         0; 0; 0; 0; 0];
                        [0; 0; 0; 0; 0; 0; 0; 0];
                        [0; 0; 0; 0;
                         cos phi * cos theta; sin phi * cos theta;
                         - sin theta; 0];
                        [0; 0; 0; 1; 0; 0; 0; 0];
                        [0; 0; 0; 0; 0; 0; 0; 1]]) i j))
      /\ coordinate_base.free_to_bound_jacobian trf3 mask free_vec
         = DivByZero).
Proof.
  cbv zeta.
  assert (Hphi0 : (e_bound_phi < e_bound_size)%nat) by (cbv; lia).
  assert (Hdir0 : (e_free_dir0 < e_free_size)%nat) by (cbv; lia).
  assert (Hdir1 : (e_free_dir1 < e_free_size)%nat) by (cbv; lia).
  pose proof (free_to_bound_jacobian_outcomes_entries trf3 mask free_vec
                e_bound_phi e_free_dir0 Hphi0 Hdir0) as E0.
  pose proof (free_to_bound_jacobian_outcomes_entries trf3 mask free_vec
                e_bound_phi e_free_dir1 Hphi0 Hdir1) as E1.
  cbv zeta in E0, E1.
  cbn [Nat.eqb e_bound_phi e_free_dir0 e_free_dir1 andb] in E0, E1.
  split; [ | split ].
  - intros [Hlo Hhi].
    assert (Hs : sin (getter.theta (track_helper.dir free_vec)) <> 0).
    { apply Rgt_not_eq. apply sin_gt_0; assumption. }
    split; [ exact Hs | ].
    rewrite E0, E1, !(div_nonzero _ _ Hs).
    split; [ reflexivity | ]. split; [ reflexivity | ].
    now apply free_to_bound_jacobian_defined.
  - intros [-> | ->]; [ apply sin_0 | apply sin_PI ].
  - intros Hs. rewrite Hs, div_zero in E0, E1.
    split; [ exact E0 | ]. split; [ exact E1 | ]. split.
    + intros i j Hi Hj Hne0 Hne1.
      rewrite (free_to_bound_jacobian_outcomes_entries trf3 mask free_vec
                 i j Hi Hj).
      destruct (Nat.eqb_spec i e_bound_phi) as [-> | Hi'];
        [ | reflexivity ].
      destruct (Nat.eqb_spec j e_free_dir0) as [-> | Hj0];
        [ now contradiction Hne0 | ].
      destruct (Nat.eqb_spec j e_free_dir1) as [-> | Hj1];
        [ now contradiction Hne1 | reflexivity ].
    + unfold coordinate_base.free_to_bound_jacobian.
      exact (finite_div_by_zero _ e_bound_phi e_free_dir0 Hphi0 Hdir0 E0).
Qed.

End any_frame.

End planar_facts.

(** ** Grid axes *)

Module axis_facts.

Import axis.

Local Open Scope Z_scope.

(** C9: [range] of the circular axis is the pair (0, 0) and [zone] the empty
    sequence, whatever the value, the neighbourhood size, the bounds of the
    axis and its number of bins. *)
Theorem circular_range_zone (kDIM : Z) (ax : circular.t kDIM)
  (v : value_type) (nhood : Z) :
  circular.range ax v nhood = (0, 0) /\ circular.zone ax v nhood = [].
Proof. split; reflexivity. Qed.

Section closed_bin.

Variable optional_index_bits : Z.
Variable guaranteed_index_bits : Z.

Lemma scaled_defined {kDIM : Z} (ax : closed.t kDIM) (v : value_type) :
  (closed._min ax < closed._max ax)%Q ->
  closed.scaled ax v
  = Some ((v - closed._min ax) / (closed._max ax - closed._min ax)
          * inject_Z kDIM)%Q.
Proof.
  intros Hlt. unfold closed.scaled.
  destruct (Qeq_bool (closed._max ax - closed._min ax) 0) eqn:E;
    [ | reflexivity ].
  apply Qeq_bool_eq in E. exfalso.
  apply (Qlt_irrefl (closed._min ax)).
  setoid_replace (closed._min ax) with (closed._max ax) at 2; [ exact Hlt | ].
  symmetry. apply (Qplus_inj_r _ _ (- closed._min ax)).
  rewrite Qplus_opp_r. exact E.
Qed.

Lemma to_optional_index_representable (q : value_type) :
  closed.optional_index_min optional_index_bits <= truncate q
  <= closed.optional_index_max optional_index_bits ->
  closed.to_optional_index optional_index_bits q = Some (truncate q).
Proof.
  intros [Hlo Hhi]. unfold closed.to_optional_index.
  apply Z.leb_le in Hlo. apply Z.leb_le in Hhi.
  now rewrite Hlo, Hhi.
Qed.

Lemma to_optional_index_overflow (q : value_type) :
  closed.optional_index_max optional_index_bits < truncate q ->
  closed.to_optional_index optional_index_bits q = None.
Proof.
  intros Hhi. unfold closed.to_optional_index.
  apply Z.leb_gt in Hhi. rewrite Hhi. now rewrite andb_false_r.
Qed.

(** Where [optional_index] represents the truncated scaled value, [bin] is
    that value clamped into [0, kDIM - 1]. *)
Lemma closed_bin_clamped {kDIM : Z} (ax : closed.t kDIM) (v q : value_type) :
  0 < kDIM < unsigned_int_modulus ->
  kDIM <= 2 ^ guaranteed_index_bits ->
  closed.scaled ax v = Some q ->
  closed.optional_index_min optional_index_bits <= truncate q
  <= closed.optional_index_max optional_index_bits ->
  exists i,
    closed.bin optional_index_bits guaranteed_index_bits ax v = Some i
    /\ 0 <= i <= kDIM - 1
    /\ i = Z.max 0 (Z.min (truncate q) (kDIM - 1)).
Proof.
  intros [Hpos Hu] Hg Hq Hrep.
  unfold closed.bin. rewrite Hq.
  rewrite (to_optional_index_representable q Hrep).
  unfold closed.to_guaranteed_index, unsigned_int_sub.
  destruct (Z.leb_spec 0 (truncate q)) as [H0 | H0]; cbn [andb].
  - destruct (Z.ltb_spec (truncate q) kDIM) as [Hk | Hk].
    + eexists. split; [ reflexivity | ].
      rewrite Z.mod_small by lia. lia.
    + destruct (Z.ltb_spec (truncate q) 0) as [Hn | _]; [ lia | ].
      eexists. split; [ reflexivity | ].
      rewrite (Z.mod_small (kDIM - 1) unsigned_int_modulus) by lia.
      rewrite Z.mod_small by lia. lia.
  - destruct (Z.ltb_spec (truncate q) 0) as [_ | Hn]; [ | lia ].
    eexists. split; [ reflexivity | ]. lia.
Qed.

(** Where the truncated scaled value is above what [optional_index]
    represents, the conversion in [bin] has no defined result. *)
Lemma closed_bin_overflow {kDIM : Z} (ax : closed.t kDIM) (v q : value_type) :
  closed.scaled ax v = Some q ->
  closed.optional_index_max optional_index_bits < truncate q ->
  closed.bin optional_index_bits guaranteed_index_bits ax v = None.
Proof.
  intros Hq Hhi. unfold closed.bin. rewrite Hq.
  now rewrite (to_optional_index_overflow q Hhi).
Qed.

End closed_bin.

Lemma truncate_inject_Z (q : value_type) (n : Z) :
  (q == inject_Z n)%Q -> truncate q = n.
Proof.
  unfold Qeq, truncate. cbn. intros H. rewrite Z.mul_1_r in H.
  rewrite H. apply Z.quot_mul. discriminate.
Qed.

(** Whatever the widths of the index types, some value has no bin on the
    closed axis of 10 bins over [0, 1]. *)
Lemma closed_bin_unrepresentable_any_width
  (optional_index_bits guaranteed_index_bits : Z) :
  exists v : value_type,
    closed.bin optional_index_bits guaranteed_index_bits
      (closed.mk (kDIM := 10) 0%Q 1%Q) v = None.
Proof.
  exists (inject_Z (2 ^ optional_index_bits)).
  apply (closed_bin_overflow _ _ _ _
           ((inject_Z (2 ^ optional_index_bits) - 0) / (1 - 0)
            * inject_Z 10)%Q).
  - reflexivity.
  - rewrite (truncate_inject_Z _ (2 ^ optional_index_bits * 10)).
    + unfold closed.optional_index_max.
      assert (H0 : 0 <= 2 ^ optional_index_bits) by (apply Z.pow_nonneg; lia).
      assert (H1 : 2 ^ (optional_index_bits - 1) <= 2 ^ optional_index_bits).
      { destruct (Z.le_gt_cases 1 optional_index_bits) as [H | H].
        - apply Z.pow_le_mono_r; lia.
        - rewrite (Z.pow_neg_r 2 (optional_index_bits - 1)) by lia.
          exact H0. }
      lia.
    + rewrite inject_Z_mult. field.
Qed.

(** A closed axis of 10 bins over [0, 1]. *)
Example closed_bin_inside :
  closed.bin 32 64 (closed.mk (kDIM := 10) 0%Q 1%Q) (37 # 100)%Q = Some 3.
Proof. vm_compute. reflexivity. Qed.

Example closed_bin_underflow :
  closed.bin 32 64 (closed.mk (kDIM := 10) 0%Q 1%Q) (- (5 # 2))%Q = Some 0.
Proof. vm_compute. reflexivity. Qed.

Example closed_bin_overflow_small :
  closed.bin 32 64 (closed.mk (kDIM := 10) 0%Q 1%Q) (7 # 2)%Q = Some 9.
Proof. vm_compute. reflexivity. Qed.

(** C10: on the closed axis of 10 bins over [0, 1] the value 10^30 scales
    to 10^31, which neither a 32-bit nor a 64-bit [optional_index]
    represents: [bin] has no defined result there, it is not the index
    [kDIM - 1] = 9. *)
Theorem closed_bin_unrepresentable :
  closed.bin 32 64 (closed.mk (kDIM := 10) 0%Q 1%Q) (inject_Z (10 ^ 30)) = None
  /\ closed.bin 64 64 (closed.mk (kDIM := 10) 0%Q 1%Q) (inject_Z (10 ^ 30))
     = None.
Proof. split; vm_compute; reflexivity. Qed.

End axis_facts.

(** ** Bound to free and back *)

Module roundtrip_facts.

Import algebra.
Import matrix_actor.
Import matrix_facts.
Import angle_facts.
Import cartesian2_facts.
Import planar_facts.

Local Open Scope R_scope.

Section any_frame.

Context {mask_t : Type} {D : Derived.t mask_t}.

(** The bound vector of a free vector, row by row. *)
Lemma free_to_bound_vector_entries (trf3 : transform3)
  (free_vec : coordinate_base.free_vector) :
  let dir := track_helper.dir free_vec in
  let local :=
    Derived.global_to_local trf3 (track_helper.pos free_vec) dir in
  mat_eq (coordinate_base.free_to_bound_vector trf3 free_vec)
    (of_rows
       [[at2 local 0]; [at2 local 1]; [getter.phi dir]; [getter.theta dir];
        [element free_vec e_free_time 0];
        [element free_vec e_free_qoverp 0]]).
Proof.
  cbv zeta. unfold mat_eq. each_entry 6%nat 1%nat; reflexivity.
Qed.

(** The free vector of a bound vector: its position is the local point
    carried to the global frame, its direction the direction of the angles,
    its time and qOverP those of the bound vector. *)
Lemma pos_bound_to_free_vector (trf3 : transform3) (mask : mask_t)
  (bound_vec : coordinate_base.bound_vector) :
  track_helper.pos (coordinate_base.bound_to_free_vector trf3 mask bound_vec)
  = Derived.local_to_global trf3 mask (track_helper.local bound_vec)
      (track_helper.bound_dir bound_vec).
Proof.
  unfold track_helper.pos, coordinate_base.bound_to_free_vector.
  destruct (Derived.local_to_global trf3 mask (track_helper.local bound_vec)
              (track_helper.bound_dir bound_vec)) as [[x y] z].
  reflexivity.
Qed.

Lemma dir_bound_to_free_vector (trf3 : transform3) (mask : mask_t)
  (bound_vec : coordinate_base.bound_vector) :
  track_helper.dir (coordinate_base.bound_to_free_vector trf3 mask bound_vec)
  = track_helper.bound_dir bound_vec.
Proof. reflexivity. Qed.

Lemma time_bound_to_free_vector (trf3 : transform3) (mask : mask_t)
  (bound_vec : coordinate_base.bound_vector) :
  element (coordinate_base.bound_to_free_vector trf3 mask bound_vec)
    e_free_time 0
  = element bound_vec e_bound_time 0.
Proof. reflexivity. Qed.

Lemma qoverp_bound_to_free_vector (trf3 : transform3) (mask : mask_t)
  (bound_vec : coordinate_base.bound_vector) :
  element (coordinate_base.bound_to_free_vector trf3 mask bound_vec)
    e_free_qoverp 0
  = element bound_vec e_bound_qoverp 0.
Proof. reflexivity. Qed.

End any_frame.

(** The angles of the direction built from [phi] and [theta]. *)
Lemma theta_bound_dir (bound_vec : coordinate_base.bound_vector) :
  0 <= element bound_vec e_bound_theta 0 <= PI ->
  getter.theta (track_helper.bound_dir bound_vec)
  = element bound_vec e_bound_theta 0.
Proof. intros H. unfold getter.theta. cbn. now apply acos_cos. Qed.

Lemma phi_bound_dir (bound_vec : coordinate_base.bound_vector) (k : Z) :
  0 < element bound_vec e_bound_theta 0 < PI ->
  - PI < element bound_vec e_bound_phi 0 + 2 * IZR k * PI <= PI ->
  getter.phi (track_helper.bound_dir bound_vec)
  = element bound_vec e_bound_phi 0 + 2 * IZR k * PI.
Proof.
  intros [Hlo Hhi] Hk. unfold getter.phi. cbn [track_helper.bound_dir at3].
  rewrite <- (sin_period_Z (element bound_vec e_bound_phi 0) k).
  rewrite <- (cos_period_Z (element bound_vec e_bound_phi 0) k).
  apply atan2_polar; [ | exact Hk ].
  apply sin_gt_0; assumption.
Qed.

Section planar.

Context {mask_t : Type}.

(** C5: over the planar frame and the transform of a surface, a bound
    vector with theta strictly between 0 and pi, sent to the free vector and
    back, returns with the same local point, theta, time and qOverP, and
    with phi brought into (-pi, pi] by a multiple of 2 pi: phi itself when
    it is in (-pi, pi], and pi for phi = -pi. *)
Theorem free_to_bound_vector_bound_to_free_vector (trf3 : transform3)
  (mask : mask_t) (bound_vec : coordinate_base.bound_vector) :
  let phi := element bound_vec e_bound_phi 0 in
  let theta := element bound_vec e_bound_theta 0 in
  rigid trf3 ->
  0 < theta < PI ->
  exists phi',
    (exists k : Z, phi' = phi + 2 * IZR k * PI)
    /\ - PI < phi' <= PI
    /\ (- PI < phi <= PI -> phi' = phi)
    /\ (phi = - PI -> phi' = PI)
    /\ mat_eq
         (coordinate_base.free_to_bound_vector (D := cartesian2.frame mask_t)
            trf3
            (coordinate_base.bound_to_free_vector
               (D := cartesian2.frame mask_t) trf3 mask bound_vec))
         (of_rows
            [[element bound_vec e_bound_loc0 0];
             [element bound_vec e_bound_loc1 0];
             [phi']; [theta];
             [element bound_vec e_bound_time 0];
             [element bound_vec e_bound_qoverp 0]]).
Proof.
  cbv zeta. intros Hrigid Htheta. pose proof PI_RGT_0 as Hpi.
  destruct (principal_angle (element bound_vec e_bound_phi 0)) as [k Hk].
  exists (element bound_vec e_bound_phi 0 + 2 * IZR k * PI).
  split; [ now exists k | ].
  split; [ exact Hk | ].
  split.
  { intros Hphi.
    rewrite (principal_angle_unique _ k Hphi Hk). lra. }
  split.
  { intros Hphi. rewrite Hphi in *.
    assert (H1 : 0 < IZR k) by nra.
    assert (H2 : IZR k < 2) by nra.
    apply lt_IZR in H1. apply lt_IZR in H2.
    replace k with 1%Z by lia. lra. }
  eapply mat_eq_trans; [ apply free_to_bound_vector_entries | ].
  rewrite pos_bound_to_free_vector, dir_bound_to_free_vector.
  rewrite time_bound_to_free_vector, qoverp_bound_to_free_vector.
  rewrite (phi_bound_dir bound_vec k Htheta Hk).
  rewrite (theta_bound_dir bound_vec) by lra.
  change (Derived.global_to_local (t := cartesian2.frame mask_t))
    with (cartesian2.global_to_local).
  change (Derived.local_to_global (t := cartesian2.frame mask_t))
    with (cartesian2.local_to_global (mask_t := mask_t)).
  rewrite (global_to_local_inverse trf3 mask _ _ _ Hrigid).
  unfold mat_eq. each_entry 6%nat 1%nat; reflexivity.
Qed.

End planar.

End roundtrip_facts.

(** ** The theorems at concrete tracks *)

Module instances.

Import algebra.
Import matrix_actor.
Import matrix_facts.
Import cartesian2_facts.
Import planar_facts.
Import roundtrip_facts.

Local Open Scope R_scope.

Lemma theta_along_x :
  getter.theta (track_helper.dir scenario.along_x) = PI / 2.
Proof.
  change (acos 0 = PI / 2). apply acos_0.
Qed.

Lemma theta_along_z :
  getter.theta (track_helper.dir scenario.along_z) = 0.
Proof.
  change (acos 1 = 0). apply acos_1.
Qed.

Lemma two_lt_PI : 2 < PI.
Proof. pose proof PI2_1. lra. Qed.


(** C2 at the identity transform and a track along the x axis. *)
Lemma free_to_bound_jacobian_planar_witness :
  let free_vec := scenario.along_x in
  let trf3 := identity_transform in
  let dir := track_helper.dir free_vec in
  let theta := getter.theta dir in
  let phi := getter.phi dir in
  let r := rotation trf3 in
  sin theta <> 0
  /\ mat_eq
       (cartesian2.free_pos_to_bound_pos_derivative trf3 tt
          (track_helper.pos free_vec) dir)
       (of_rows
          [[element r 0 0; element r 1 0; element r 2 0];
           [element r 0 1; element r 1 1; element r 2 1]])
  /\ exists J,
       coordinate_base.free_to_bound_jacobian (D := cartesian2.frame unit)
         trf3 tt free_vec = Ok J
       /\ mat_eq J
            (of_rows
               [[element r 0 0; element r 1 0; element r 2 0; 0; 0; 0; 0; 0];
                [element r 0 1; element r 1 1; element r 2 1; 0; 0; 0; 0; 0];
                [0; 0; 0; 0;
                 - sin phi / sin theta; cos phi / sin theta; 0; 0];
                [0; 0; 0; 0;
                 cos phi * cos theta; sin phi * cos theta; - sin theta; 0];
                [0; 0; 0; 1; 0; 0; 0; 0];
                [0; 0; 0; 0; 0; 0; 0; 1]]).
Proof.
  cbv zeta.
  assert (Hs : sin (getter.theta (track_helper.dir scenario.along_x)) <> 0).
  { rewrite theta_along_x, sin_PI2. lra. }
  split; [ exact Hs | ].
  exact (free_to_bound_jacobian_planar identity_transform tt
           scenario.along_x Hs).
Defined.

(** C3 at the identity transform and a track along the z axis, the normal
    of the surface. *)
Lemma free_to_path_correction_planar_witness :
  let free_vec := scenario.along_z in
  let trf3 := identity_transform in
  let dir := track_helper.dir free_vec in
  let frame :=
    cartesian2.reference_frame trf3 tt (track_helper.pos free_vec) dir in
  let n0 := element frame 0 2 in
  let n1 := element frame 1 2 in
  let n2 := element frame 2 2 in
  let dz := n0 * at3 dir 0 + n1 * at3 dir 1 + n2 * at3 dir 2 in
  dz <> 0
  /\ exists M,
       coordinate_base.free_to_path_correction (D := cartesian2.frame unit)
         trf3 tt free_vec = Ok M
       /\ mat_eq M
            (of_rows
               [[-1 / dz * n0; -1 / dz * n1; -1 / dz * n2; 0; 0; 0; 0; 0]]).
Proof.
  cbv zeta.
  match goal with |- ?h /\ _ => assert (Hdz : h) end.
  { planar_cbv. cbv [scenario.along_z]. mat_cbv. lra. }
  split; [ exact Hdz | ].
  exact (free_to_path_correction_planar identity_transform tt
           scenario.along_z Hdz).
Defined.

(** C7 at a track along the x axis (theta = pi/2) and at a track along the
    z axis (theta = 0, where the sine is zero). *)
Lemma free_to_bound_jacobian_poles_witness :
  let theta_x := getter.theta (track_helper.dir scenario.along_x) in
  let phi_x := getter.phi (track_helper.dir scenario.along_x) in
  let theta_z := getter.theta (track_helper.dir scenario.along_z) in
  let written_x :=
    coordinate_base.free_to_bound_jacobian_outcomes
      (D := cartesian2.frame unit) identity_transform tt scenario.along_x in
  let written_z :=
    coordinate_base.free_to_bound_jacobian_outcomes
      (D := cartesian2.frame unit) identity_transform tt scenario.along_z in
  (0 < theta_x < PI
   /\ sin theta_x <> 0
   /\ outcome written_x e_bound_phi e_free_dir0
      = Ok (-1 * sin phi_x / sin theta_x)
   /\ outcome written_x e_bound_phi e_free_dir1
      = Ok (cos phi_x / sin theta_x)
   /\ exists J,
        coordinate_base.free_to_bound_jacobian (D := cartesian2.frame unit)
          identity_transform tt scenario.along_x = Ok J)
  /\ (sin theta_z = 0
      /\ outcome written_z e_bound_phi e_free_dir0 = DivByZero
      /\ outcome written_z e_bound_phi e_free_dir1 = DivByZero
      /\ coordinate_base.free_to_bound_jacobian (D := cartesian2.frame unit)
           identity_transform tt scenario.along_z
         = DivByZero).
Proof.
  cbv zeta.
  assert (Hx : 0 < getter.theta (track_helper.dir scenario.along_x) < PI).
  { rewrite theta_along_x. pose proof PI_RGT_0. lra. }
  assert (Hz : sin (getter.theta (track_helper.dir scenario.along_z)) = 0).
  { rewrite theta_along_z. apply sin_0. }
  split.
  - split; [ exact Hx | ].
    exact (proj1 (free_to_bound_jacobian_poles (D := cartesian2.frame unit)
                    identity_transform tt scenario.along_x) Hx).
  - split; [ exact Hz | ].
    destruct (proj2 (proj2 (free_to_bound_jacobian_poles
                              (D := cartesian2.frame unit)
                              identity_transform tt scenario.along_z)) Hz)
      as [H0 [H1 [_ Hall]]].
    split; [ exact H0 | ]. split; [ exact H1 | exact Hall ].
Defined.

(** C5 at the identity transform and the sample bound vector. *)
Lemma free_to_bound_vector_bound_to_free_vector_witness :
  let bound_vec := scenario.bound_sample in
  let trf3 := identity_transform in
  let phi := element bound_vec e_bound_phi 0 in
  let theta := element bound_vec e_bound_theta 0 in
  rigid trf3
  /\ 0 < theta < PI
  /\ exists phi',
       (exists k : Z, phi' = phi + 2 * IZR k * PI)
       /\ - PI < phi' <= PI
       /\ (- PI < phi <= PI -> phi' = phi)
       /\ (phi = - PI -> phi' = PI)
       /\ mat_eq
            (coordinate_base.free_to_bound_vector
               (D := cartesian2.frame unit) trf3
               (coordinate_base.bound_to_free_vector
                  (D := cartesian2.frame unit) trf3 tt bound_vec))
            (of_rows
               [[element bound_vec e_bound_loc0 0];
                [element bound_vec e_bound_loc1 0];
                [phi']; [theta];
                [element bound_vec e_bound_time 0];
                [element bound_vec e_bound_qoverp 0]]).
Proof.
  cbv zeta.
  assert (Ht : 0 < element scenario.bound_sample e_bound_theta 0 < PI).
  { change (0 < 1.2 < PI). pose proof two_lt_PI. lra. }
  split; [ exact rigid_identity_transform | ].
  split; [ exact Ht | ].
  exact (free_to_bound_vector_bound_to_free_vector identity_transform tt
           scenario.bound_sample rigid_identity_transform Ht).
Defined.

End instances.
(** ** Double precision *)

Module binary64_facts.

Import algebra.
Import binary64.

Local Open Scope R_scope.

(** *** pi to the precision of a double *)

(** The rational partial sums are those of the series of the reals. *)
Lemma Q2R_power (q : Q) (n : nat) : Q2R (power q n) = Q2R q ^ n.
Proof.
  induction n as [| n IH]; cbn [power pow].
  - unfold Q2R. cbn. lra.
  - rewrite Q2R_mult, IH. reflexivity.
Qed.

Lemma pow_minus_one (i : nat) :
  (-1) ^ i = Q2R (if Nat.even i then 1 else -1).
Proof.
  induction i as [| i IH].
  - cbn. unfold Q2R. cbn. lra.
  - rewrite Nat.even_succ, <- Nat.negb_even. cbn [pow]. rewrite IH.
    destruct (Nat.even i); cbn [negb]; unfold Q2R; cbn; lra.
Qed.

Lemma Q2R_term (i : nat) :
  Q2R (pi_series_term i) = tg_alt PI_2_3_7_tg i.
Proof.
  unfold pi_series_term, tg_alt, PI_2_3_7_tg, Ratan_seq.
  rewrite Q2R_mult, Q2R_div, Q2R_plus, Q2R_mult, !Q2R_power.
  - rewrite <- pow_minus_one.
    replace (Q2R (inject_Z (Z.of_nat (2 * i + 1)))) with (INR (2 * i + 1)).
    + replace (Q2R 2) with 2 by (unfold Q2R; cbn; lra).
      replace (Q2R (1 # 3)) with (/ 3) by (unfold Q2R; cbn; lra).
      replace (Q2R (1 # 7)) with (/ 7) by (unfold Q2R; cbn; lra).
      assert (INR (2 * i + 1) <> 0) by (apply not_0_INR; lia).
      field. assumption.
    + rewrite INR_IZR_INZ. unfold Q2R. cbn. field.
  - intros H. unfold Qeq in H. cbn in H. lia.
Qed.

Lemma Q2R_sum (n : nat) :
  Q2R (pi_series_sum n) = sum_f_R0 (tg_alt PI_2_3_7_tg) n.
Proof.
  induction n as [| n IH]; cbn [pi_series_sum sum_f_R0].
  - apply Q2R_term.
  - rewrite Q2R_plus, IH, Q2R_term. reflexivity.
Qed.

(** pi between two partial sums of the series. *)
Lemma PI_above (N : nat) (a : Q) :
  (a < 4 * pi_series_sum (S (2 * N)))%Q -> Q2R a < PI.
Proof.
  intros H. apply Qlt_Rlt in H. rewrite Q2R_mult, Q2R_sum in H.
  replace (Q2R 4) with 4 in H by (unfold Q2R; cbn; lra).
  pose proof (PI_2_3_7_ineq N) as [Hlo _]. lra.
Qed.

Lemma PI_below (N : nat) (a : Q) :
  (4 * pi_series_sum (2 * N) < a)%Q -> PI < Q2R a.
Proof.
  intros H. apply Qlt_Rlt in H. rewrite Q2R_mult, Q2R_sum in H.
  replace (Q2R 4) with 4 in H by (unfold Q2R; cbn; lra).
  pose proof (PI_2_3_7_ineq N) as [_ Hhi]. lra.
Qed.

(** *** Powers of two and the grid of the doubles *)

Lemma pow2_nonneg (n : Z) : (0 <= n)%Z -> pow2 n = IZR (2 ^ n).
Proof.
  intros Hn. unfold pow2. destruct n as [| p | p]; [ reflexivity | | lia ].
  cbn [powerRZ]. rewrite pow_IZR, positive_nat_Z. reflexivity.
Qed.

Lemma pow2_neg (n : Z) : (0 <= n)%Z -> pow2 (- n) = / IZR (2 ^ n).
Proof.
  intros Hn. unfold pow2. rewrite powerRZ_neg'. f_equal.
  now apply pow2_nonneg.
Qed.

Lemma pow2_add (a b : Z) : pow2 (a + b) = pow2 a * pow2 b.
Proof. unfold pow2. apply powerRZ_add. lra. Qed.

Lemma pow2_pos (e : Z) : 0 < pow2 e.
Proof. unfold pow2. apply powerRZ_lt. lra. Qed.

Lemma pow2_le (a b : Z) : (a <= b)%Z -> pow2 a <= pow2 b.
Proof.
  intros Hab. replace b with (a + (b - a))%Z by lia.
  rewrite pow2_add, (pow2_nonneg (b - a)) by lia.
  pose proof (pow2_pos a).
  assert (1 <= IZR (2 ^ (b - a))).
  { apply IZR_le. pose proof (Z.pow_pos_nonneg 2 (b - a)). lia. }
  nra.
Qed.

Lemma pow2_double (e : Z) : pow2 e = pow2 (e - 1) * 2.
Proof.
  change 2 with (IZR (2 ^ 1)).
  rewrite <- (pow2_nonneg 1), <- pow2_add by lia. f_equal. lia.
Qed.

(** A double is a multiple of [2^e0], or is below [2^53 2^(e0-1)] in
    absolute value. *)
Lemma representable_grid (e0 : Z) (g : R) :
  representable g ->
  (exists k : Z, g = IZR k * pow2 e0)
  \/ Rabs g < IZR (2 ^ 53) * pow2 (e0 - 1).
Proof.
  intros (m & e & Hm & He & ->).
  destruct (Z_le_gt_dec e0 e) as [Hge | Hlt].
  - left. exists (m * 2 ^ (e - e0))%Z.
    rewrite mult_IZR, Rmult_assoc. f_equal.
    rewrite <- pow2_nonneg, <- pow2_add by lia. f_equal. lia.
  - right. rewrite Rabs_mult, (Rabs_pos_eq (pow2 e)), <- abs_IZR.
    2:{ left. apply pow2_pos. }
    assert (Hp : pow2 e <= pow2 (e0 - 1)) by (apply pow2_le; lia).
    pose proof (pow2_pos e).
    assert (Habs : IZR (Z.abs m) < IZR (2 ^ 53)) by (apply IZR_lt; lia).
    assert (H0 : 0 <= IZR (Z.abs m)) by (apply IZR_le; lia).
    nra.
Qed.

(** A double [M 2^e0] with a 53-bit mantissa above [2^52] is the one double
    nearest to every number less than half a spacing away. *)
Lemma nearest_on_grid (M e0 : Z) (x : R) :
  (2 ^ 52 < M < 2 ^ 53)%Z -> (-1074 <= e0 <= 971)%Z ->
  Rabs (x - IZR M * pow2 e0) < pow2 e0 / 2 ->
  nearest x (IZR M * pow2 e0)
  /\ forall t, nearest x t -> t = IZR M * pow2 e0.
Proof.
  intros HM He Hx. set (f := IZR M * pow2 e0) in *.
  pose proof (pow2_pos e0) as Hp.
  assert (Hf : representable f).
  { exists M, e0. split; [ lia | ]. split; [ exact He | reflexivity ]. }
  assert (Hfar : forall g, representable g -> g <> f ->
                 pow2 e0 / 2 < Rabs (g - x)).
  { intros g Hg Hne. apply Rabs_def2 in Hx.
    destruct (representable_grid e0 g Hg) as [[k ->] | Hsmall].
    - unfold f in *.
      destruct (Z_lt_le_dec k M) as [Hlt | Hge].
      + assert (Hk : IZR k <= IZR M - 1).
        { rewrite <- minus_IZR. apply IZR_le. lia. }
        rewrite Rabs_left; nra.
      + destruct (Z.eq_dec k M) as [-> | Hk'];
          [ now contradiction Hne | ].
        assert (Hk : IZR M + 1 <= IZR k).
        { rewrite <- plus_IZR. apply IZR_le. lia. }
        rewrite Rabs_right; nra.
    - pose proof (pow2_double e0) as Hd.
      pose proof (pow2_pos (e0 - 1)) as Hq.
      apply Rabs_def2 in Hsmall. unfold f in *.
      assert (HM' : IZR (2 ^ 52) + 1 <= IZR M).
      { rewrite <- plus_IZR. apply IZR_le. lia. }
      change (2 ^ 53)%Z with (2 * 2 ^ 52)%Z in Hsmall.
      rewrite mult_IZR in Hsmall.
      assert (0 <= (IZR M - IZR (2 ^ 52) - 1) * pow2 (e0 - 1)) by nra.
      rewrite Rabs_left; nra. }
  split.
  - split; [ exact Hf | ]. intros g Hg.
    destruct (Req_dec g f) as [-> | Hne]; [ lra | ].
    specialize (Hfar g Hg Hne).
    rewrite <- Rabs_Ropp, Ropp_minus_distr. lra.
  - intros t [Ht Hnear].
    destruct (Req_dec t f) as [E | Hne]; [ exact E | exfalso ].
    specialize (Hfar t Ht Hne). specialize (Hnear f Hf).
    rewrite <- (Rabs_Ropp (f - x)), Ropp_minus_distr in Hnear. lra.
Qed.

(** *** The doubles nearest to pi and to the sine of the first *)

Lemma sin_lower (x : R) : 0 <= x <= 1 -> x - x * x * x / 6 <= sin x.
Proof.
  intros [H0 H1].
  assert (HPI : x <= PI) by (pose proof PI2_1; pose proof PI_RGT_0; lra).
  pose proof (SIN x H0 HPI) as [Hlb _].
  apply Rle_trans with (2 := Hlb).
  unfold sin_lb, sin_approx, sin_term, sum_f_R0.
  replace (INR (fact (2 * 0 + 1))) with 1 by (cbn; lra).
  replace (INR (fact (2 * 1 + 1))) with 6 by (cbn; lra).
  replace (INR (fact (2 * 2 + 1))) with 120
    by (rewrite INR_IZR_INZ; reflexivity).
  replace (INR (fact (2 * 3 + 1))) with 5040
    by (rewrite INR_IZR_INZ; reflexivity).
  cbn [pow Nat.mul Nat.add].
  assert (Hy : 0 <= x * x <= 1) by nra.
  set (y := x * x) in *.
  replace (x * (x * (x * (x * (x * (x * (x * 1)))))))
    with (x * (y * y * y)) by (unfold y; ring).
  replace (x * (x * (x * (x * (x * 1))))) with (x * (y * y))
    by (unfold y; ring).
  replace (x * (x * (x * 1))) with (x * y) by (unfold y; ring).
  assert (Hyy : 0 <= y * y <= 1) by nra.
  assert (Hyyy : 0 <= y * y * y <= y * y) by nra.
  assert (H5 : 0 <= x * (y * y)) by nra.
  assert (H7 : x * (y * y * y) <= x * (y * y)) by nra.
  lra.
Qed.

Lemma pow2_m51 : pow2 (-51) = / 2251799813685248.
Proof. exact (pow2_neg 51 ltac:(lia)). Qed.

Lemma pow2_m105 : pow2 (-105) = / 40564819207303340847894502572032.
Proof. exact (pow2_neg 105 ltac:(lia)). Qed.

Lemma pow2_m107 : pow2 (-107) = / 162259276829213363391578010288128.
Proof. exact (pow2_neg 107 ltac:(lia)). Qed.

(** pi is above [M_PI] by [sin_M_PI] less at most a quarter of the spacing
    of the doubles around [sin_M_PI]. *)
Lemma PI_M_PI :
  M_PI + sin_M_PI - pow2 (-107) < PI < M_PI + sin_M_PI.
Proof.
  unfold M_PI, sin_M_PI. rewrite pow2_m51, pow2_m105, pow2_m107.
  split.
  - replace (7074237752028440 * / 2251799813685248
             + 4967757600021511 * / 40564819207303340847894502572032
             - / 162259276829213363391578010288128)
      with (Q2R ((7074237752028440 # 2 ^ 51)
                 + (4967757600021511 # 2 ^ 105) - (1 # 2 ^ 107))).
    + apply (PI_above 16). vm_compute. reflexivity.
    + rewrite Q2R_minus, !Q2R_plus. unfold Q2R. cbn. lra.
  - replace (7074237752028440 * / 2251799813685248
             + 4967757600021511 * / 40564819207303340847894502572032)
      with (Q2R ((7074237752028440 # 2 ^ 51)
                 + (4967757600021511 # 2 ^ 105))).
    + apply (PI_below 16). vm_compute. reflexivity.
    + rewrite !Q2R_plus. unfold Q2R. cbn. lra.
Qed.

(** [M_PI] is the double nearest to pi, and the only one. *)
Lemma nearest_M_PI :
  nearest PI M_PI /\ forall t, nearest PI t -> t = M_PI.
Proof.
  apply nearest_on_grid; [ cbn; lia | lia | ].
  pose proof PI_M_PI as [Hlo Hhi]. fold M_PI.
  unfold sin_M_PI in *. rewrite pow2_m105, pow2_m107 in *. rewrite pow2_m51.
  apply Rabs_def1; lra.
Qed.

(** [sin_M_PI] is the double nearest to the sine of [M_PI], and the only
    one. *)
Lemma nearest_sin_M_PI :
  nearest (sin M_PI) sin_M_PI
  /\ forall s, nearest (sin M_PI) s -> s = sin_M_PI.
Proof.
  apply nearest_on_grid; [ cbn; lia | lia | ].
  pose proof PI_M_PI as [Hlo Hhi]. fold sin_M_PI.
  rewrite <- (sin_PI_x M_PI).
  set (x := PI - M_PI) in *.
  assert (Hx0 : sin_M_PI - pow2 (-107) < x) by (unfold x; lra).
  assert (Hx1 : x < sin_M_PI) by (unfold x; lra).
  unfold sin_M_PI in *. rewrite pow2_m105, pow2_m107 in *.
  pose proof (sin_lower x ltac:(lra)) as Hlb.
  pose proof (sin_lt_x x ltac:(lra)) as Hub.
  assert (Hcube : x * x * x / 6 < / 162259276829213363391578010288128).
  { assert (Hx : 0 < x < / 4503599627370496) by lra.
    assert (Hxx : 0 < x * x < / 4503599627370496 * / 4503599627370496)
      by nra.
    assert (Hxxx : x * x * x
                   < / 4503599627370496 * / 4503599627370496
                     * / 4503599627370496) by nra.
    lra. }
  apply Rabs_def1; lra.
Qed.

(** *** The transform engine on doubles *)

Lemma theta_against_z :
  getter.theta (track_helper.dir scenario.against_z) = PI.
Proof.
  change (acos (- (1)) = PI). rewrite acos_opp, acos_1. lra.
Qed.

(** C7, the direction (0, 0, -1), whose polar angle is pi: on doubles
    [theta] is the double nearest to pi, 3.141592653589793, which is below
    pi, and [sin_theta] is the double nearest to its sine,
    1.2246467991473532e-16.  The divisor of the phi row is not zero there
    and the quotients are numbers. *)
Lemma free_to_bound_jacobian_against_z :
  let dir := track_helper.dir scenario.against_z in
  getter.theta dir = PI
  /\ sin (getter.theta dir) = 0
  /\ sin_theta dir sin_M_PI
  /\ (forall s, sin_theta dir s -> s = sin_M_PI)
  /\ 0 < sin_M_PI
  /\ (forall a, algebra.div a sin_M_PI = Ok (a / sin_M_PI)).
Proof.
  cbv zeta.
  pose proof nearest_M_PI as [Htheta Htheta_unique].
  pose proof nearest_sin_M_PI as [Hsin Hsin_unique].
  assert (Hpos : 0 < sin_M_PI).
  { unfold sin_M_PI. pose proof (pow2_pos (-105)). nra. }
  split; [ exact theta_against_z | ].
  split; [ rewrite theta_against_z; apply sin_PI | ].
  split.
  { exists M_PI. rewrite theta_against_z. split; assumption. }
  split.
  { intros s [theta [Hnear Hs]]. rewrite theta_against_z in Hnear.
    rewrite (Htheta_unique theta Hnear) in Hs. now apply Hsin_unique. }
  split; [ exact Hpos | ].
  intros a. unfold div.
  destruct (Req_dec_T sin_M_PI 0) as [E | _]; [ lra | reflexivity ].
Qed.

Section doubles.

Import PrimFloat.

Local Open Scope float_scope.


End doubles.

End binary64_facts.

(** ** The Jacobian of [bound_to_free_vector] as a derivative *)

Module jacobian_facts.

Import algebra.
Import matrix_actor.
Import matrix_facts.
Import planar_facts.

Local Open Scope R_scope.

(** The derivative depends on the values of the function only. *)
Lemma derivable_pt_lim_ext (f g : R -> R) (x l : R) :
  (forall y, f y = g y) -> derivable_pt_lim g x l -> derivable_pt_lim f x l.
Proof.
  intros E H eps Heps. destruct (H eps Heps) as [delta Hdelta].
  exists delta. intros h Hh Hlt. rewrite !E. now apply Hdelta.
Qed.

(** The derivative of [a sin y + b cos y + c y + d]. *)
Lemma derivable_pt_lim_combination (a b c d : R) (f : R -> R) (x l : R) :
  (forall y, 0 = a * sin y + b * cos y + c * y + d - f y) ->
  0 = a * cos x - b * sin x + c - l ->
  derivable_pt_lim f x l.
Proof.
  intros E Hl.
  assert (El : l = a * cos x - b * sin x + c) by lra. rewrite El.
  apply (derivable_pt_lim_ext f
           (mult_real_fct a sin + mult_real_fct b cos + mult_real_fct c id
            + fct_cte d)%F).
  - intros y. pose proof (E y) as Ey.
    unfold plus_fct, mult_real_fct, fct_cte, id. lra.
  - replace (a * cos x - b * sin x + c)
      with (a * cos x + b * (- sin x) + c * 1 + 0) by ring.
    repeat apply derivable_pt_lim_plus.
    + apply derivable_pt_lim_scal, derivable_pt_lim_sin.
    + apply derivable_pt_lim_scal, derivable_pt_lim_cos.
    + apply derivable_pt_lim_scal, derivable_pt_lim_id.
    + apply derivable_pt_lim_const.
Qed.

(** Derives one entry of the free vector in one row of the bound vector. *)
Ltac derive_entry :=
  lazymatch goal with
  | |- derivable_pt_lim (fun y => ?c * cos y) _ _ =>
      apply (derivable_pt_lim_combination 0 c 0 0); [ intro; ring | ring ]
  | |- derivable_pt_lim (fun y => ?c * sin y) _ _ =>
      apply (derivable_pt_lim_combination c 0 0 0); [ intro; ring | ring ]
  | |- derivable_pt_lim (fun y => sin y * ?c) _ _ =>
      apply (derivable_pt_lim_combination c 0 0 0); [ intro; ring | ring ]
  | |- derivable_pt_lim (fun y => cos y) _ _ =>
      apply (derivable_pt_lim_combination 0 1 0 0); [ intro; ring | ring ]
  | |- derivable_pt_lim ?f _ ?l =>
      apply (derivable_pt_lim_combination 0 0 l (f 0));
      [ intro; cbv beta delta [scalar]; ring | ring ]
  end.

Section planar.
Context {mask_t : Type}.

(** X1: over the planar frame, [bound_to_free_jacobian] is the Jacobian of
    [bound_to_free_vector]: its entry (i, j) is the derivative of row i of
    the free vector in row j of the bound vector, at every transform and
    bound vector. *)
Theorem bound_to_free_jacobian_is_jacobian (trf3 : transform3)
  (mask : mask_t) (bound_vec : coordinate_base.bound_vector) :
  linear.jacobian_at
    (coordinate_base.bound_to_free_vector (D := cartesian2.frame mask_t)
       trf3 mask)
    bound_vec
    (coordinate_base.bound_to_free_jacobian (D := cartesian2.frame mask_t)
       trf3 mask bound_vec).
Proof.
  destruct trf3 as [r [[t0 t1] t2]].
  unfold linear.jacobian_at. intros i j Hi Hj.
  by_index i Hi 8%nat
    ltac:(idtac; by_index j Hj 6%nat ltac:(idtac; planar_cbv)).
  all: derive_entry.
Qed.
End planar.
End jacobian_facts.

(** ** How the two Jacobians compose *)

Module composition_facts.

Import algebra.
Import matrix_actor.
Import matrix_facts.
Import angle_facts.
Import cartesian2_facts.
Import coordinate_base_facts.
Import planar_facts.
Import roundtrip_facts.

Local Open Scope R_scope.

(** Sums and products of matrices respect the entries inside the sizes. *)
Lemma sum_below_ext (n : nat) (f g : nat -> scalar) :
  (forall k, (k < n)%nat -> f k = g k) ->
  linear.sum_below n f = linear.sum_below n g.
Proof.
  induction n as [| n IH]; intros H; [ reflexivity | ].
  cbn [linear.sum_below]. rewrite IH by (intros k Hk; apply H; lia).
  rewrite (H n) by lia. reflexivity.
Qed.

Lemma mat_mul_ext {ROWS INNER COLS : nat} (A A' : matrix_type ROWS INNER)
  (B B' : matrix_type INNER COLS) :
  mat_eq A A' -> mat_eq B B' ->
  mat_eq (linear.mat_mul A B) (linear.mat_mul A' B').
Proof.
  intros HA HB i j Hi Hj. unfold linear.mat_mul. cbn [entries].
  apply sum_below_ext. intros k Hk. unfold element.
  rewrite (HA i k Hi Hk), (HB k j Hk Hj). reflexivity.
Qed.

(** Evaluates the sums of a product of matrices. *)
Ltac product_cbv :=
  cbv beta iota zeta delta
    [linear.mat_mul linear.sum_below linear.identity linear.norm2];
  mat_cbv.

Section planar.

Context {mask_t : Type}.

(** X2: over the planar frame and a rigid transform, with theta strictly
    between 0 and pi, [free_to_bound_jacobian] taken at the free vector of a
    bound vector, times [bound_to_free_jacobian] taken at that bound vector,
    is the 6x6 identity. *)
Theorem free_to_bound_jacobian_left_inverse (trf3 : transform3)
  (mask : mask_t) (bound_vec : coordinate_base.bound_vector) :
  rigid trf3 ->
  0 < element bound_vec e_bound_theta 0 < PI ->
  exists J,
    coordinate_base.free_to_bound_jacobian (D := cartesian2.frame mask_t)
      trf3 mask
      (coordinate_base.bound_to_free_vector (D := cartesian2.frame mask_t)
         trf3 mask bound_vec) = Ok J
    /\ mat_eq
         (linear.mat_mul J
            (coordinate_base.bound_to_free_jacobian
               (D := cartesian2.frame mask_t) trf3 mask bound_vec))
         (linear.identity e_bound_size).
Proof.
  intros Hrigid Htheta.
  destruct (principal_angle (element bound_vec e_bound_phi 0)) as [k Hk].
  pose proof (theta_bound_dir bound_vec ltac:(lra)) as Etheta.
  pose proof (phi_bound_dir bound_vec k Htheta Hk) as Ephi.
  assert (Hs : 0 < sin (element bound_vec e_bound_theta 0))
    by (apply sin_gt_0; lra).
  set (f := coordinate_base.bound_to_free_vector
              (D := cartesian2.frame mask_t) trf3 mask bound_vec).
  assert (Hsf : sin (getter.theta (track_helper.dir f)) <> 0).
  { unfold f. rewrite dir_bound_to_free_vector, Etheta. lra. }
  destruct (free_to_bound_jacobian_entries (D := cartesian2.frame mask_t)
              trf3 mask f Hsf) as [J [HJ Hentries]].
  exists J. split; [ exact HJ | ].
  eapply mat_eq_trans.
  { apply mat_mul_ext;
      [ exact Hentries
      | exact (bound_to_free_jacobian_entries (D := cartesian2.frame mask_t)
                 trf3 mask bound_vec) ]. }
  unfold f. rewrite dir_bound_to_free_vector, Etheta, Ephi.
  rewrite sin_period_Z, cos_period_Z.
  pose proof (rigid_columns trf3 0 0 Hrigid ltac:(lia) ltac:(lia)) as H00.
  pose proof (rigid_columns trf3 0 1 Hrigid ltac:(lia) ltac:(lia)) as H01.
  pose proof (rigid_columns trf3 1 1 Hrigid ltac:(lia) ltac:(lia)) as H11.
  cbn in H00, H01, H11. unfold element in H00, H01, H11.
  pose proof (sin2_cos2 (element bound_vec e_bound_phi 0)) as Hphi.
  pose proof (sin2_cos2 (element bound_vec e_bound_theta 0)) as Hth.
  unfold Rsqr, element in Hphi, Hth, Hs.
  destruct trf3 as [r [[t0 t1] t2]]. cbn [rotation] in *.
  unfold e_bound_phi, e_bound_theta in *.
  unfold mat_eq. intros i j Hi Hj.
  by_index i Hi 6%nat
    ltac:(idtac; by_index j Hj 6%nat ltac:(idtac; product_cbv; planar_cbv)).
  all: try lra.
  - match goal with
    | |- context [cos ?a / sin ?b] =>
        transitivity (sin a * sin a + cos a * cos a);
        [ field; apply Rgt_not_eq; exact Hs | exact Hphi ]
    end.
  - match goal with
    | |- context [sin ?a * cos ?b * (cos ?b * sin ?a)] =>
        transitivity
          ((sin a * sin a + cos a * cos a) * (cos b * cos b)
           + sin b * sin b);
        [ ring | ];
        transitivity (1 * (cos b * cos b) + sin b * sin b);
        [ f_equal; f_equal; exact Hphi | ];
        transitivity (sin b * sin b + cos b * cos b);
        [ ring | exact Hth ]
    end.
Qed.

End planar.
End composition_facts.

(** ** Directions, angles, the path correction and the plane of the
    surface *)

Module geometry_facts.

Import algebra.
Import matrix_actor.
Import matrix_facts.
Import angle_facts.
Import cartesian2_facts.
Import coordinate_base_facts.
Import planar_facts.
Import roundtrip_facts.
Import composition_facts.

Local Open Scope R_scope.

(** [atan2] takes its values in (-pi, pi]. *)
Lemma atan2_range (y x : R) : - PI < atan2 y x <= PI.
Proof.
  pose proof PI_RGT_0 as Hpi. unfold atan2.
  destruct (Rlt_dec 0 x) as [Hx | Hx].
  - pose proof (atan_bound (y / x)). lra.
  - destruct (Rlt_dec x 0) as [Hx' | Hx'].
    + pose proof (atan_bound (y / x)) as Hb.
      destruct (Rle_dec 0 y) as [Hy | Hy].
      * assert (y / x <= 0).
        { unfold Rdiv. assert (/ x < 0) by now apply Rinv_lt_0_compat.
          nra. }
        assert (atan (y / x) <= 0).
        { destruct (Req_dec (y / x) 0) as [E | E].
          - rewrite E, atan_0. lra.
          - rewrite <- atan_0. left. apply atan_increasing. lra. }
        lra.
      * assert (0 < y / x).
        { unfold Rdiv. assert (/ x < 0) by now apply Rinv_lt_0_compat.
          nra. }
        assert (0 < atan (y / x)).
        { rewrite <- atan_0. now apply atan_increasing. }
        lra.
    + destruct (Rlt_dec 0 y); [ lra | ].
      destruct (Rlt_dec y 0); lra.
Qed.

Section any_frame.

Context {mask_t : Type} {D : Derived.t mask_t}.

(** X6: with [dz] not zero, the position entries of the row returned by
    [free_to_path_correction], applied to the direction of the track, give
    -1, whatever the frame variant. *)
Theorem free_to_path_correction_along_direction (trf3 : transform3)
  (mask : mask_t) (free_vec : coordinate_base.free_vector) :
  let dir := track_helper.dir free_vec in
  let frame :=
    Derived.reference_frame trf3 mask (track_helper.pos free_vec) dir in
  let dz := dot (block 3 1 frame 0 2) dir in
  dz <> 0 ->
  exists M,
    coordinate_base.free_to_path_correction trf3 mask free_vec = Ok M
    /\ element M 0 e_free_pos0 * at3 dir 0
       + element M 0 e_free_pos1 * at3 dir 1
       + element M 0 e_free_pos2 * at3 dir 2 = -1.
Proof.
  cbv zeta. intros Hdz.
  unfold coordinate_base.free_to_path_correction.
  rewrite (div_nonzero _ _ Hdz). cbn [bind].
  eexists. split; [ reflexivity | ].
  revert Hdz. mat_cbv. intros Hdz. field. exact Hdz.
Qed.

(** X4: the direction rows of the free vector built by
    [bound_to_free_vector] have unit length, whatever the frame variant, the
    transform and the bound vector. *)
Theorem bound_to_free_vector_unit_direction (trf3 : transform3)
  (mask : mask_t) (bound_vec : coordinate_base.bound_vector) :
  linear.norm2
    (track_helper.dir
       (coordinate_base.bound_to_free_vector trf3 mask bound_vec)) = 1.
Proof.
  rewrite dir_bound_to_free_vector.
  pose proof (sin2_cos2 (element bound_vec e_bound_phi 0)) as Hphi.
  pose proof (sin2_cos2 (element bound_vec e_bound_theta 0)) as Hth.
  unfold Rsqr in Hphi, Hth. revert Hphi Hth.
  product_cbv. intros Hphi Hth.
  match goal with
  | |- sin ?b * cos ?a * _ + _ + _ = 1 =>
      transitivity
        (sin b * sin b * (sin a * sin a + cos a * cos a) + cos b * cos b);
      [ ring | ];
      transitivity (sin b * sin b * 1 + cos b * cos b);
      [ f_equal; f_equal; exact Hphi | ];
      transitivity (sin b * sin b + cos b * cos b); [ ring | exact Hth ]
  end.
Qed.

(** X5: for a direction whose z component lies in [-1, 1], as that of a
    unit direction does, the bound vector built by [free_to_bound_vector]
    has theta in [0, pi] with [cos theta] the z component, and phi in
    (-pi, pi], whatever the frame variant and the transform. *)
Theorem free_to_bound_vector_angles (trf3 : transform3)
  (free_vec : coordinate_base.free_vector) :
  -1 <= at3 (track_helper.dir free_vec) 2 <= 1 ->
  let bound_vec := coordinate_base.free_to_bound_vector trf3 free_vec in
  0 <= element bound_vec e_bound_theta 0 <= PI
  /\ cos (element bound_vec e_bound_theta 0)
     = at3 (track_helper.dir free_vec) 2
  /\ - PI < element bound_vec e_bound_phi 0 <= PI.
Proof.
  intros Hz. cbv zeta. split; [ | split ].
  - change (0 <= getter.theta (track_helper.dir free_vec) <= PI).
    apply acos_bound.
  - change (cos (acos (at3 (track_helper.dir free_vec) 2))
            = at3 (track_helper.dir free_vec) 2).
    apply cos_acos; lra.
  - change (- PI < getter.phi (track_helper.dir free_vec) <= PI).
    apply atan2_range.
Qed.

End any_frame.

Section planar.

Context {mask_t : Type}.

(** X7: over the planar frame and a rigid transform, with [dz] not zero, the
    row returned by [free_to_path_correction] times [bound_to_free_jacobian]
    is the zero 1x6 row: the correction vanishes on displacements inside
    the surface. *)
Theorem free_to_path_correction_annihilates_jacobian (trf3 : transform3)
  (mask : mask_t) (free_vec : coordinate_base.free_vector)
  (bound_vec : coordinate_base.bound_vector) :
  let dir := track_helper.dir free_vec in
  let frame :=
    cartesian2.reference_frame trf3 mask (track_helper.pos free_vec) dir in
  let dz := dot (block 3 1 frame 0 2) dir in
  rigid trf3 ->
  dz <> 0 ->
  exists M,
    coordinate_base.free_to_path_correction (D := cartesian2.frame mask_t)
      trf3 mask free_vec = Ok M
    /\ mat_eq
         (linear.mat_mul M
            (coordinate_base.bound_to_free_jacobian
               (D := cartesian2.frame mask_t) trf3 mask bound_vec))
         (zero 1 e_bound_size).
Proof.
  cbv zeta. intros Hrigid Hdz.
  destruct (free_to_path_correction_entries (D := cartesian2.frame mask_t)
              trf3 mask free_vec Hdz) as [M [HM Hentries]].
  exists M. split; [ exact HM | ].
  eapply mat_eq_trans.
  { apply mat_mul_ext;
      [ exact Hentries
      | exact (bound_to_free_jacobian_entries (D := cartesian2.frame mask_t)
                 trf3 mask bound_vec) ]. }
  pose proof (rigid_columns trf3 0 2 Hrigid ltac:(lia) ltac:(lia)) as H02.
  pose proof (rigid_columns trf3 1 2 Hrigid ltac:(lia) ltac:(lia)) as H12.
  cbn in H02, H12. unfold element in H02, H12.
  destruct trf3 as [r [[t0 t1] t2]]. cbn [rotation] in *.
  unfold mat_eq. intros i j Hi Hj.
  by_index i Hi 1%nat
    ltac:(idtac; by_index j Hj 6%nat ltac:(idtac; product_cbv; planar_cbv)).
  all: try lra.
  all: match goal with
       | |- context [-1 / ?dz] =>
           generalize (-1 / dz); intros q
       end.
  - transitivity
      (q * (entries r 0 0 * entries r 0 2 + entries r 1 0 * entries r 1 2
            + entries r 2 0 * entries r 2 2)); [ ring | ].
    rewrite H02. ring.
  - transitivity
      (q * (entries r 0 1 * entries r 0 2 + entries r 1 1 * entries r 1 2
            + entries r 2 1 * entries r 2 2)); [ ring | ].
    rewrite H12. ring.
Qed.

(** X8: over a rigid transform, the point returned by the planar
    [local_to_global] lies in the plane of the surface: its offset from the
    translation is orthogonal to column 2 of the rotation. *)
Theorem local_to_global_on_plane (trf3 : transform3) (mask : mask_t)
  (p : point2) (d : vector3) :
  rigid trf3 ->
  let g := cartesian2.local_to_global trf3 mask p d in
  let r := rotation trf3 in
  let t := translation trf3 in
  element r 0 2 * (at3 g 0 - at3 t 0)
  + element r 1 2 * (at3 g 1 - at3 t 1)
  + element r 2 2 * (at3 g 2 - at3 t 2) = 0.
Proof.
  intros Hrigid. cbv zeta.
  pose proof (rigid_columns trf3 0 2 Hrigid ltac:(lia) ltac:(lia)) as H02.
  pose proof (rigid_columns trf3 1 2 Hrigid ltac:(lia) ltac:(lia)) as H12.
  cbn in H02, H12. unfold element in H02, H12.
  destruct trf3 as [r [[t0 t1] t2]]. destruct p as [p0 p1].
  cbn [rotation translation] in *. planar_cbv.
  transitivity
    (p0 * (entries r 0 0 * entries r 0 2 + entries r 1 0 * entries r 1 2
           + entries r 2 0 * entries r 2 2)
     + p1 * (entries r 0 1 * entries r 0 2 + entries r 1 1 * entries r 1 2
             + entries r 2 1 * entries r 2 2)); [ ring | ].
  rewrite H02, H12. ring.
Qed.

(** X9: over a rigid transform, the planar [global_to_local] does not
    change when the global point is moved along column 2 of the rotation,
    the normal of the surface. *)
Theorem global_to_local_along_normal (trf3 : transform3) (p : point3)
  (d : vector3) (s : scalar) :
  rigid trf3 ->
  let r := rotation trf3 in
  cartesian2.global_to_local trf3
    (at3 p 0 + s * element r 0 2, at3 p 1 + s * element r 1 2,
     at3 p 2 + s * element r 2 2) d
  = cartesian2.global_to_local trf3 p d.
Proof.
  intros Hrigid. cbv zeta.
  pose proof (rigid_columns trf3 0 2 Hrigid ltac:(lia) ltac:(lia)) as H02.
  pose proof (rigid_columns trf3 1 2 Hrigid ltac:(lia) ltac:(lia)) as H12.
  cbn in H02, H12. unfold element in H02, H12.
  destruct trf3 as [r [[t0 t1] t2]]. destruct p as [[x y] z].
  cbn [rotation translation] in *. planar_cbv.
  apply f_equal2.
  - transitivity
      (entries r 0 0 * (x - t0) + entries r 1 0 * (y - t1)
       + entries r 2 0 * (z - t2)
       + s * (entries r 0 0 * entries r 0 2 + entries r 1 0 * entries r 1 2
              + entries r 2 0 * entries r 2 2)); [ ring | ].
    rewrite H02. ring.
  - transitivity
      (entries r 0 1 * (x - t0) + entries r 1 1 * (y - t1)
       + entries r 2 1 * (z - t2)
       + s * (entries r 0 1 * entries r 0 2 + entries r 1 1 * entries r 1 2
              + entries r 2 1 * entries r 2 2)); [ ring | ].
    rewrite H12. ring.
Qed.

End planar.

End geometry_facts.

(** ** Free to bound and back *)

Module inverse_roundtrip_facts.

Import algebra.
Import matrix_actor.
Import matrix_facts.
Import angle_facts.
Import cartesian2_facts.
Import coordinate_base_facts.
Import planar_facts.
Import roundtrip_facts.
Import composition_facts.

Local Open Scope R_scope.

(** A point of the unit circle has an angle in (-pi, pi]. *)
Lemma polar_angle_exists (c s : R) :
  c * c + s * s = 1 ->
  exists a, - PI < a <= PI /\ cos a = c /\ sin a = s.
Proof.
  intros H. pose proof PI_RGT_0 as Hpi.
  assert (Hc : -1 <= c <= 1) by nra.
  pose proof (acos_bound c) as Hb.
  pose proof (cos_acos c Hc) as Hcos.
  pose proof (sin_acos c Hc) as Hsin. unfold Rsqr in Hsin.
  replace (1 - c * c) with (s * s) in Hsin by lra.
  destruct (Rle_lt_dec 0 s) as [Hs | Hs].
  - exists (acos c). rewrite sqrt_square in Hsin by exact Hs.
    repeat split; try lra; assumption.
  - exists (- acos c).
    replace (s * s) with (- s * - s) in Hsin by ring.
    rewrite sqrt_square in Hsin by lra.
    rewrite cos_neg, sin_neg.
    repeat split; try lra.
    destruct (Req_dec (acos c) PI) as [E | E]; [ exfalso | lra ].
    rewrite E, cos_PI in Hcos. nra.
Qed.

(** [atan2] recovers the direction of a point of the plane away from the
    origin. *)
Lemma atan2_cos_sin (rho x y : R) :
  0 < rho -> rho * rho = x * x + y * y ->
  rho * cos (atan2 y x) = x /\ rho * sin (atan2 y x) = y.
Proof.
  intros Hrho H.
  destruct (polar_angle_exists (x / rho) (y / rho)) as [a [Ha [Hc Hs]]].
  { transitivity ((x * x + y * y) / (rho * rho)); [ field; lra | ].
    rewrite <- H. field. lra. }
  assert (Ex : x = rho * cos a) by (rewrite Hc; field; lra).
  assert (Ey : y = rho * sin a) by (rewrite Hs; field; lra).
  rewrite Ex at 1 3. rewrite Ey at 1 2.
  rewrite (atan2_polar rho a Hrho Ha).
  split; [ now rewrite <- Ex | now rewrite <- Ey ].
Qed.

(** The direction built from the angles of a unit direction is that
    direction. *)
Lemma direction_of_angles (x y z : R) :
  x * x + y * y + z * z = 1 ->
  sin (acos z) * cos (atan2 y x) = x
  /\ sin (acos z) * sin (atan2 y x) = y
  /\ cos (acos z) = z.
Proof.
  intros H.
  assert (Hz : -1 <= z <= 1) by nra.
  pose proof (sin_acos z Hz) as Hsin. unfold Rsqr in Hsin.
  assert (Hnn : 0 <= 1 - z * z) by nra.
  pose proof (sqrt_sqrt (1 - z * z) Hnn) as Hsq.
  pose proof (sqrt_pos (1 - z * z)) as Hpos.
  rewrite <- Hsin in Hsq, Hpos.
  split; [ | split; [ | now apply cos_acos ] ].
  - destruct (Req_dec (sin (acos z)) 0) as [E | E].
    + rewrite E in *. assert (x = 0) by nra. lra.
    + apply (atan2_cos_sin (sin (acos z)) x y); lra.
  - destruct (Req_dec (sin (acos z)) 0) as [E | E].
    + rewrite E in *. assert (y = 0) by nra. lra.
    + apply (atan2_cos_sin (sin (acos z)) x y); lra.
Qed.

Section any_frame.

Context {mask_t : Type} {D : Derived.t mask_t}.

(** The free vector of a bound vector, row by row. *)
Lemma bound_to_free_vector_entries (trf3 : transform3) (mask : mask_t)
  (bound_vec : coordinate_base.bound_vector) :
  let dir := track_helper.bound_dir bound_vec in
  let pos :=
    Derived.local_to_global trf3 mask (track_helper.local bound_vec) dir in
  mat_eq (coordinate_base.bound_to_free_vector trf3 mask bound_vec)
    (of_rows
       [[at3 pos 0]; [at3 pos 1]; [at3 pos 2];
        [element bound_vec e_bound_time 0];
        [at3 dir 0]; [at3 dir 1]; [at3 dir 2];
        [element bound_vec e_bound_qoverp 0]]).
Proof.
  cbv zeta. unfold mat_eq. each_entry 8%nat 1%nat; reflexivity.
Qed.

Lemma local_free_to_bound_vector (trf3 : transform3)
  (free_vec : coordinate_base.free_vector) :
  track_helper.local (coordinate_base.free_to_bound_vector trf3 free_vec)
  = Derived.global_to_local trf3 (track_helper.pos free_vec)
      (track_helper.dir free_vec).
Proof.
  unfold track_helper.local, coordinate_base.free_to_bound_vector.
  destruct (Derived.global_to_local trf3 (track_helper.pos free_vec)
              (track_helper.dir free_vec)) as [l0 l1].
  reflexivity.
Qed.

Lemma bound_dir_free_to_bound_vector (trf3 : transform3)
  (free_vec : coordinate_base.free_vector) :
  track_helper.bound_dir
    (coordinate_base.free_to_bound_vector trf3 free_vec)
  = (sin (getter.theta (track_helper.dir free_vec))
     * cos (getter.phi (track_helper.dir free_vec)),
     sin (getter.theta (track_helper.dir free_vec))
     * sin (getter.phi (track_helper.dir free_vec)),
     cos (getter.theta (track_helper.dir free_vec))).
Proof. reflexivity. Qed.

End any_frame.

Section planar.

Context {mask_t : Type}.

(** X3: over the planar frame and a rigid transform, a free vector whose
    position is the image of a local point of the surface and whose
    direction has unit length, sent to the bound vector and back, is
    returned row by row. *)
Theorem bound_to_free_vector_free_to_bound_vector (trf3 : transform3)
  (mask : mask_t) (free_vec : coordinate_base.free_vector) :
  rigid trf3 ->
  (exists local : point2,
     track_helper.pos free_vec
     = cartesian2.local_to_global trf3 mask local
         (track_helper.dir free_vec)) ->
  linear.norm2 (track_helper.dir free_vec) = 1 ->
  mat_eq
    (coordinate_base.bound_to_free_vector (D := cartesian2.frame mask_t)
       trf3 mask
       (coordinate_base.free_to_bound_vector (D := cartesian2.frame mask_t)
          trf3 free_vec))
    free_vec.
Proof.
  intros Hrigid [local Hpos] Hunit.
  eapply mat_eq_trans; [ apply bound_to_free_vector_entries | ].
  rewrite local_free_to_bound_vector, bound_dir_free_to_bound_vector.
  change (Derived.global_to_local (t := cartesian2.frame mask_t))
    with (cartesian2.global_to_local).
  change (Derived.local_to_global (t := cartesian2.frame mask_t))
    with (cartesian2.local_to_global (mask_t := mask_t)).
  assert (Elocal : cartesian2.global_to_local trf3
                     (track_helper.pos free_vec) (track_helper.dir free_vec)
                   = local).
  { rewrite Hpos. apply (global_to_local_inverse trf3 mask _ _ _ Hrigid). }
  rewrite Elocal.
  assert (Epos : cartesian2.local_to_global trf3 mask local
                   (sin (getter.theta (track_helper.dir free_vec))
                    * cos (getter.phi (track_helper.dir free_vec)),
                    sin (getter.theta (track_helper.dir free_vec))
                    * sin (getter.phi (track_helper.dir free_vec)),
                    cos (getter.theta (track_helper.dir free_vec)))
                 = track_helper.pos free_vec).
  { rewrite Hpos. reflexivity. }
  rewrite Epos.
  destruct (direction_of_angles
              (at3 (track_helper.dir free_vec) 0)
              (at3 (track_helper.dir free_vec) 1)
              (at3 (track_helper.dir free_vec) 2) Hunit)
    as [E0 [E1 E2]].
  unfold mat_eq. intros i j Hi Hj.
  by_index i Hi 8%nat ltac:(idtac; by_index j Hj 1%nat ltac:(idtac)).
  all: try reflexivity.
  - exact E0.
  - exact E1.
  - exact E2.
Qed.

End planar.

End inverse_roundtrip_facts.

(** ** Rounding and the edges of the bins *)

Module axis_extra_facts.

Import axis.
Import axis_facts.

Local Open Scope Z_scope.

(** *** Rounding towards zero *)

Lemma truncate_floor (q : value_type) :
  (0 <= q)%Q -> truncate q = Qfloor q.
Proof.
  destruct q as [n d]. unfold Qle, truncate, Qfloor. cbn.
  intros H. apply Z.quot_div_nonneg; lia.
Qed.

Lemma truncate_ceiling (q : value_type) :
  (q <= 0)%Q -> truncate q = Qceiling q.
Proof.
  destruct q as [n d]. unfold Qle, truncate, Qceiling, Qfloor. cbn.
  intros H.
  replace n with (- - n) at 1 by lia.
  rewrite Z.quot_opp_l by discriminate.
  rewrite Z.quot_div_nonneg by lia. reflexivity.
Qed.

Lemma truncate_le (q q' : value_type) :
  (q <= q')%Q -> truncate q <= truncate q'.
Proof.
  intros H.
  destruct (Qlt_le_dec q 0) as [Hq | Hq];
    destruct (Qlt_le_dec q' 0) as [Hq' | Hq'].
  - rewrite !truncate_ceiling by now apply Qlt_le_weak.
    now apply Qceiling_resp_le.
  - rewrite (truncate_ceiling q) by now apply Qlt_le_weak.
    rewrite (truncate_floor q') by exact Hq'.
    assert (Qceiling q <= 0).
    { rewrite <- (Qceiling_Z 0). apply Qceiling_resp_le.
      now apply Qlt_le_weak. }
    assert (0 <= Qfloor q').
    { rewrite <- (Qfloor_Z 0). now apply Qfloor_resp_le. }
    lia.
  - exfalso. apply (Qlt_irrefl 0).
    apply Qle_lt_trans with q'; [ | exact Hq' ].
    now apply Qle_trans with q.
  - rewrite !truncate_floor by assumption. now apply Qfloor_resp_le.
Qed.

(** *** The scaled value against the edges of the bins *)

(** The scaled value is at least [a] from the lower edge of cell [a] on,
    and below [a] under it. *)
Lemma scaled_edges (kDIM : Z) (lo hi v : value_type) (a : Z) :
  0 < kDIM -> (lo < hi)%Q ->
  let q := ((v - lo) / (hi - lo) * inject_Z kDIM)%Q in
  let w := ((hi - lo) / inject_Z kDIM)%Q in
  ((lo + inject_Z a * w <= v)%Q -> (inject_Z a <= q)%Q)
  /\ ((v < lo + inject_Z a * w)%Q -> (q < inject_Z a)%Q).
Proof.
  intros HK Hlt q w.
  assert (HKq : (0 < inject_Z kDIM)%Q).
  { change (inject_Z 0 < inject_Z kDIM)%Q. rewrite <- Zlt_Qlt. exact HK. }
  assert (HD : (0 < hi - lo)%Q) by Lqa.lra.
  assert (Hw : (0 < w)%Q).
  { unfold w. apply Qlt_shift_div_l; [ exact HKq | Lqa.lra ]. }
  assert (E : (q * w == v - lo)%Q).
  { unfold q, w. field. split; Lqa.lra. }
  split; intros H.
  - apply Qmult_le_r with w; [ exact Hw | ]. rewrite E. Lqa.lra.
  - apply Qmult_lt_r with w; [ exact Hw | ]. rewrite E. Lqa.lra.
Qed.

End axis_extra_facts.

(** ** The closed axis: [bin], [range] and [zone] *)

Module closed_axis_facts.

Import axis.
Import axis_cells.
Import axis_facts.
Import axis_extra_facts.

Local Open Scope Z_scope.

Section closed_axis.

Variable optional_index_bits : Z.
Variable guaranteed_index_bits : Z.

Lemma index_min_nonpos : closed.optional_index_min optional_index_bits <= 0.
Proof.
  unfold closed.optional_index_min.
  pose proof (Z.pow_nonneg 2 (optional_index_bits - 1)). lia.
Qed.

(** What a defined raw index says about the scaled value. *)
Lemma ibin_inv {kDIM : Z} (ax : closed.t kDIM) (v : value_type) (z : Z) :
  closed_ibin optional_index_bits ax v = Some z ->
  exists q,
    closed.scaled ax v = Some q
    /\ closed.to_optional_index optional_index_bits q = Some z
    /\ z = truncate q
    /\ closed.optional_index_min optional_index_bits <= z
       <= closed.optional_index_max optional_index_bits.
Proof.
  unfold closed_ibin. destruct (closed.scaled ax v) as [q |];
    [ | discriminate ].
  intros H. exists q. split; [ reflexivity | ]. split; [ exact H | ].
  unfold closed.to_optional_index in H.
  destruct (Z.leb_spec (closed.optional_index_min optional_index_bits)
              (truncate q));
    destruct (Z.leb_spec (truncate q)
                (closed.optional_index_max optional_index_bits));
    cbn [andb] in H; try discriminate.
  injection H as <-. lia.
Qed.

(** X12: [closed::bin] is monotone: where it is defined at [v <= v'], the
    bin of [v] is at most the bin of [v']. *)
Theorem closed_bin_monotone {kDIM : Z} (ax : closed.t kDIM)
  (v v' : value_type) (i i' : Z) :
  0 < kDIM < unsigned_int_modulus ->
  kDIM <= 2 ^ guaranteed_index_bits ->
  (closed._min ax < closed._max ax)%Q ->
  (v <= v')%Q ->
  closed.bin optional_index_bits guaranteed_index_bits ax v = Some i ->
  closed.bin optional_index_bits guaranteed_index_bits ax v' = Some i' ->
  i <= i'.
Proof.
  intros HK Hg Hlt Hv Hi Hi'.
  pose proof (scaled_defined ax v Hlt) as Hq.
  pose proof (scaled_defined ax v' Hlt) as Hq'.
  set (q := ((v - closed._min ax) / (closed._max ax - closed._min ax)
             * inject_Z kDIM)%Q) in *.
  set (q' := ((v' - closed._min ax) / (closed._max ax - closed._min ax)
              * inject_Z kDIM)%Q) in *.
  assert (Hqq : (q <= q')%Q).
  { unfold q, q'. apply Qmult_le_compat_r.
    - unfold Qdiv. apply Qmult_le_compat_r; [ Lqa.lra | ].
      apply Qlt_le_weak, Qinv_lt_0_compat. Lqa.lra.
    - change (inject_Z 0 <= inject_Z kDIM)%Q. rewrite <- Zle_Qle. lia. }
  pose proof (truncate_le q q' Hqq) as Ht.
  assert (Hrep : forall w p j, closed.scaled ax w = Some p ->
            closed.bin optional_index_bits guaranteed_index_bits ax w
            = Some j ->
            closed.optional_index_min optional_index_bits <= truncate p
            <= closed.optional_index_max optional_index_bits).
  { intros w p j Hp Hj. unfold closed.bin in Hj. rewrite Hp in Hj.
    unfold closed.to_optional_index in Hj.
    destruct (Z.leb_spec (closed.optional_index_min optional_index_bits)
                (truncate p));
      destruct (Z.leb_spec (truncate p)
                  (closed.optional_index_max optional_index_bits));
      cbn [andb] in Hj; try discriminate.
    lia. }
  destruct (closed_bin_clamped optional_index_bits guaranteed_index_bits
              ax v q HK Hg Hq (Hrep v q i Hq Hi)) as [j [Hj [_ Ej]]].
  destruct (closed_bin_clamped optional_index_bits guaranteed_index_bits
              ax v' q' HK Hg Hq' (Hrep v' q' i' Hq' Hi'))
    as [j' [Hj' [_ Ej']]].
  rewrite Hj in Hi. rewrite Hj' in Hi'.
  injection Hi as <-. injection Hi' as <-. lia.
Qed.

(** Sums and differences of small values are kept by the arithmetic between
    [optional_index] and [unsigned int]. *)
Lemma mixed_arithmetic_small (x : Z) :
  0 <= x <= closed.optional_index_max optional_index_bits ->
  closed.mixed_arithmetic optional_index_bits x = Some x.
Proof.
  intros [H0 Hmax]. unfold closed.mixed_arithmetic.
  destruct (Z.leb_spec optional_index_bits 32) as [Hb | Hb].
  - f_equal. apply Z.mod_small. split; [ exact H0 | ].
    unfold closed.optional_index_max, unsigned_int_modulus in *.
    destruct (Z.le_gt_cases 0 (optional_index_bits - 1)) as [Hp | Hp].
    + assert (2 ^ (optional_index_bits - 1) <= 2 ^ 31)
        by (apply Z.pow_le_mono_r; lia).
      lia.
    + rewrite (Z.pow_neg_r 2 (optional_index_bits - 1)) in Hmax by lia. lia.
  - pose proof index_min_nonpos.
    destruct (Z.leb_spec (closed.optional_index_min optional_index_bits) x);
      [ | lia ].
    destruct (Z.leb_spec x (closed.optional_index_max optional_index_bits));
      [ | lia ].
    reflexivity.
Qed.

Lemma range_inside_value {kDIM : Z} (ax : closed.t kDIM)
  (v : value_type) (nhood z : Z) :
  0 < kDIM < unsigned_int_modulus ->
  kDIM <= 2 ^ guaranteed_index_bits ->
  closed_ibin optional_index_bits ax v = Some z ->
  0 <= nhood <= z ->
  z < kDIM ->
  z + nhood <= closed.optional_index_max optional_index_bits ->
  closed.range optional_index_bits guaranteed_index_bits ax v nhood
  = Some (z - nhood, Z.min (z + nhood) (kDIM - 1)).
Proof.
  intros HK Hg Hibin Hn Hz Hsum.
  destruct (ibin_inv ax v z Hibin) as [q [Hq [Hto _]]].
  unfold closed.range. rewrite Hq, Hto.
  rewrite (mixed_arithmetic_small (z - nhood)) by lia.
  rewrite (mixed_arithmetic_small (z + nhood)) by lia.
  unfold closed.to_guaranteed_index, unsigned_int_sub.
  destruct (Z.leb_spec 0 (z - nhood)); [ | lia ].
  rewrite (Z.mod_small (z - nhood)) by lia.
  destruct (Z.ltb_spec (z + nhood) kDIM).
  - rewrite Z.mod_small by lia. do 2 f_equal. lia.
  - rewrite (Z.mod_small (kDIM - 1) unsigned_int_modulus) by lia.
    rewrite Z.mod_small by lia. do 2 f_equal. lia.
Qed.

(** X14: for a raw index [ibin] inside the axis and a neighbourhood size
    [nhood <= ibin], [closed::range] returns
    [(ibin - nhood, min (ibin + nhood) (kDIM - 1))], two valid indices in
    order. *)
Theorem closed_range_inside {kDIM : Z} (ax : closed.t kDIM)
  (v : value_type) (nhood z : Z) :
  0 < kDIM < unsigned_int_modulus ->
  kDIM <= 2 ^ guaranteed_index_bits ->
  closed_ibin optional_index_bits ax v = Some z ->
  0 <= nhood <= z ->
  z < kDIM ->
  z + nhood <= closed.optional_index_max optional_index_bits ->
  closed.range optional_index_bits guaranteed_index_bits ax v nhood
  = Some (z - nhood, Z.min (z + nhood) (kDIM - 1))
  /\ 0 <= z - nhood <= Z.min (z + nhood) (kDIM - 1)
  /\ Z.min (z + nhood) (kDIM - 1) <= kDIM - 1.
Proof.
  intros HK Hg Hibin Hn Hz Hsum.
  split; [ now apply range_inside_value | lia ].
Qed.

(** X10: when [optional_index] represents the raw index [ibin],
    [closed::bin] returns it clamped into [0, kDIM - 1], a valid bin
    index. *)
Theorem closed_bin_valid_index {kDIM : Z} (ax : closed.t kDIM)
  (v : value_type) (z : Z) :
  0 < kDIM < unsigned_int_modulus ->
  kDIM <= 2 ^ guaranteed_index_bits ->
  closed_ibin optional_index_bits ax v = Some z ->
  closed.bin optional_index_bits guaranteed_index_bits ax v
  = Some (Z.max 0 (Z.min z (kDIM - 1)))
  /\ 0 <= Z.max 0 (Z.min z (kDIM - 1)) <= kDIM - 1.
Proof.
  intros HK Hg Hibin.
  destruct (ibin_inv ax v z Hibin) as [q [Hq [_ [Ez Hrep]]]].
  rewrite Ez in Hrep.
  destruct (closed_bin_clamped optional_index_bits guaranteed_index_bits
              ax v q HK Hg Hq Hrep) as [i [Hi [Hrange Ei]]].
  rewrite Hi, Ei, <- Ez. split; [ reflexivity | ].
  rewrite Ei, <- Ez in Hrange. exact Hrange.
Qed.

(** X13: where [closed::bin] is defined, a value below [_min] is put into
    bin 0 and a value at or above [_max] into bin [kDIM - 1]. *)
Theorem closed_bin_outside {kDIM : Z} (ax : closed.t kDIM)
  (v : value_type) (i : Z) :
  0 < kDIM < unsigned_int_modulus ->
  kDIM <= 2 ^ guaranteed_index_bits ->
  (closed._min ax < closed._max ax)%Q ->
  closed.bin optional_index_bits guaranteed_index_bits ax v = Some i ->
  ((v < closed._min ax)%Q -> i = 0)
  /\ ((closed._max ax <= v)%Q -> i = kDIM - 1).
Proof.
  intros HK Hg Hlt Hi.
  pose proof (scaled_defined ax v Hlt) as Hq.
  set (q := ((v - closed._min ax) / (closed._max ax - closed._min ax)
             * inject_Z kDIM)%Q) in *.
  assert (Hrep : closed.optional_index_min optional_index_bits <= truncate q
                 <= closed.optional_index_max optional_index_bits).
  { unfold closed.bin in Hi. rewrite Hq in Hi.
    unfold closed.to_optional_index in Hi.
    destruct (Z.leb_spec (closed.optional_index_min optional_index_bits)
                (truncate q));
      destruct (Z.leb_spec (truncate q)
                  (closed.optional_index_max optional_index_bits));
      cbn [andb] in Hi; try discriminate.
    lia. }
  destruct (closed_bin_clamped optional_index_bits guaranteed_index_bits
              ax v q HK Hg Hq Hrep) as [j [Hj [_ Ej]]].
  rewrite Hj in Hi. injection Hi as <-.
  assert (HKq : (0 < inject_Z kDIM)%Q).
  { change (inject_Z 0 < inject_Z kDIM)%Q. rewrite <- Zlt_Qlt. lia. }
  split; intros Hv.
  - destruct (scaled_edges kDIM (closed._min ax) (closed._max ax) v 0
                ltac:(lia) Hlt) as [_ Hbelow].
    cbv zeta in Hbelow. fold q in Hbelow.
    assert (Hq0 : (q < inject_Z 0)%Q).
    { apply Hbelow. change (inject_Z 0) with 0%Q. Lqa.lra. }
    pose proof (truncate_le q (inject_Z 0) (Qlt_le_weak _ _ Hq0)) as Ht.
    rewrite (truncate_inject_Z (inject_Z 0) 0 (Qeq_refl _)) in Ht. lia.
  - destruct (scaled_edges kDIM (closed._min ax) (closed._max ax) v kDIM
                ltac:(lia) Hlt) as [Habove _].
    cbv zeta in Habove. fold q in Habove.
    assert (HqK : (inject_Z kDIM <= q)%Q).
    { apply Habove.
      setoid_replace
        (closed._min ax
         + inject_Z kDIM
           * ((closed._max ax - closed._min ax) / inject_Z kDIM))%Q
        with (closed._max ax) by (field; Lqa.lra).
      exact Hv. }
    pose proof (truncate_le (inject_Z kDIM) q HqK) as Ht.
    rewrite (truncate_inject_Z (inject_Z kDIM) kDIM (Qeq_refl _)) in Ht.
    lia.
Qed.

(** X16: for a raw index [ibin >= kDIM + nhood], [closed::range] returns the
    lower end [ibin - nhood] above the upper end [kDIM - 1]: the lower end is
    not clamped to the axis. *)
Theorem closed_range_above_axis {kDIM : Z} (ax : closed.t kDIM)
  (v : value_type) (nhood z : Z) :
  0 < kDIM < unsigned_int_modulus ->
  kDIM <= 2 ^ guaranteed_index_bits ->
  closed_ibin optional_index_bits ax v = Some z ->
  0 <= nhood ->
  kDIM + nhood <= z ->
  z + nhood <= closed.optional_index_max optional_index_bits ->
  z - nhood < 2 ^ guaranteed_index_bits ->
  closed.range optional_index_bits guaranteed_index_bits ax v nhood
  = Some (z - nhood, kDIM - 1)
  /\ kDIM - 1 < z - nhood.
Proof.
  intros HK Hg Hibin Hn Hz Hsum Hfit.
  destruct (ibin_inv ax v z Hibin) as [q [Hq [Hto _]]].
  unfold closed.range. rewrite Hq, Hto.
  rewrite (mixed_arithmetic_small (z - nhood)) by lia.
  rewrite (mixed_arithmetic_small (z + nhood)) by lia.
  unfold closed.to_guaranteed_index, unsigned_int_sub.
  destruct (Z.leb_spec 0 (z - nhood)); [ | lia ].
  rewrite (Z.mod_small (z - nhood)) by lia.
  destruct (Z.ltb_spec (z + nhood) kDIM); [ lia | ].
  rewrite (Z.mod_small (kDIM - 1) unsigned_int_modulus) by lia.
  rewrite Z.mod_small by lia. split; [ reflexivity | lia ].
Qed.

(** X15: for a raw index [ibin] inside the axis and [nhood > ibin], the
    lower end returned by [closed::range] is 0 when [optional_index] is
    wider than [unsigned int], and wraps to [ibin - nhood + 2^32] when it is
    not: the test [(ibin - nhood) >= 0] is then made on an unsigned
    value. *)
Theorem closed_range_lower_end {kDIM : Z} (ax : closed.t kDIM)
  (v : value_type) (nhood z : Z) :
  0 < kDIM < unsigned_int_modulus ->
  kDIM <= 2 ^ guaranteed_index_bits ->
  closed_ibin optional_index_bits ax v = Some z ->
  0 <= z < kDIM ->
  z < nhood ->
  z + nhood < unsigned_int_modulus ->
  (optional_index_bits <= 32 -> 32 <= guaranteed_index_bits ->
   closed.range optional_index_bits guaranteed_index_bits ax v nhood
   = Some (z - nhood + unsigned_int_modulus,
           Z.min (z + nhood) (kDIM - 1)))
  /\ (34 <= optional_index_bits ->
      closed.range optional_index_bits guaranteed_index_bits ax v nhood
      = Some (0, Z.min (z + nhood) (kDIM - 1))).
Proof.
  intros HK Hg Hibin Hz Hn Hsum.
  destruct (ibin_inv ax v z Hibin) as [q [Hq [Hto [_ Hrep]]]].
  assert (Hupper : Z.min (z + nhood) (kDIM - 1) =
            if z + nhood <? kDIM
            then (z + nhood) mod 2 ^ guaranteed_index_bits
            else ((kDIM - 1) mod unsigned_int_modulus)
                 mod 2 ^ guaranteed_index_bits).
  { destruct (Z.ltb_spec (z + nhood) kDIM).
    - rewrite Z.mod_small by lia. lia.
    - rewrite (Z.mod_small (kDIM - 1) unsigned_int_modulus) by lia.
      rewrite Z.mod_small by lia. lia. }
  unfold closed.range. rewrite Hq, Hto.
  unfold closed.mixed_arithmetic, closed.to_guaranteed_index,
    unsigned_int_sub.
  split.
  - intros Hb Hgb.
    destruct (Z.leb_spec optional_index_bits 32); [ | lia ].
    assert (E : (z - nhood) mod unsigned_int_modulus
                = z - nhood + unsigned_int_modulus).
    { symmetry. apply (Z.mod_unique _ _ (-1)); unfold unsigned_int_modulus in *;
        lia. }
    rewrite E.
    rewrite (Z.mod_small (z + nhood) unsigned_int_modulus) by lia.
    destruct (Z.leb_spec 0 (z - nhood + unsigned_int_modulus)); [ | lia ].
    assert (unsigned_int_modulus <= 2 ^ guaranteed_index_bits).
    { unfold unsigned_int_modulus. apply Z.pow_le_mono_r; lia. }
    rewrite (Z.mod_small (z - nhood + unsigned_int_modulus)) by lia.
    rewrite Hupper. reflexivity.
  - intros Hb.
    destruct (Z.leb_spec optional_index_bits 32); [ lia | ].
    assert (H33 : 2 ^ 33 <= 2 ^ (optional_index_bits - 1))
      by (apply Z.pow_le_mono_r; lia).
    unfold closed.optional_index_min, closed.optional_index_max,
      unsigned_int_modulus in *.
    destruct (Z.leb_spec (- 2 ^ (optional_index_bits - 1)) (z - nhood));
      [ | lia ].
    destruct (Z.leb_spec (z - nhood) (2 ^ (optional_index_bits - 1) - 1));
      [ | lia ].
    destruct (Z.leb_spec (- 2 ^ (optional_index_bits - 1)) (z + nhood));
      [ | lia ].
    destruct (Z.leb_spec (z + nhood) (2 ^ (optional_index_bits - 1) - 1));
      [ | lia ].
    cbn [andb].
    destruct (Z.leb_spec 0 (z - nhood)); [ lia | ].
    rewrite Hupper. reflexivity.
Qed.

(** The counter of [for_each] turns copies of [a] into [a], [a + 1], ... *)
Lemma for_each_add_repeat (a m : Z) (n : nat) :
  0 <= a -> 0 <= m ->
  a + m + Z.of_nat n <= 2 ^ guaranteed_index_bits ->
  m + Z.of_nat n < 2 ^ guaranteed_index_bits ->
  closed.for_each_add guaranteed_index_bits m (repeat a n)
  = map (fun k => a + m + Z.of_nat k) (seq 0 n).
Proof.
  revert m.
  induction n as [| n IH]; intros m Ha Hm Hfit Hcount; [ reflexivity | ].
  cbn [repeat closed.for_each_add seq map].
  unfold closed.to_guaranteed_index at 1 2.
  rewrite (Z.mod_small (a + m)) by lia.
  rewrite (Z.mod_small (m + 1)) by lia.
  rewrite IH by lia.
  rewrite <- seq_shift, map_map.
  f_equal; [ cbn; lia | ].
  apply map_ext. intros k. lia.
Qed.

(** X17: for a raw index [ibin] inside the axis and [nhood <= ibin],
    [closed::zone] returns the consecutive indices from [ibin - nhood] to
    [min (ibin + nhood) (kDIM - 1)], and only those. *)
Theorem closed_zone_inside {kDIM : Z} (ax : closed.t kDIM)
  (v : value_type) (nhood z : Z) :
  0 < kDIM < unsigned_int_modulus ->
  32 <= guaranteed_index_bits ->
  closed_ibin optional_index_bits ax v = Some z ->
  0 <= nhood <= z ->
  z < kDIM ->
  z + nhood <= closed.optional_index_max optional_index_bits ->
  let first := z - nhood in
  let last := Z.min (z + nhood) (kDIM - 1) in
  closed.zone optional_index_bits guaranteed_index_bits ax v nhood
  = Some (map (fun k => first + Z.of_nat k)
            (seq 0 (Z.to_nat (last - first + 1))))
  /\ (forall n, In n (map (fun k => first + Z.of_nat k)
                        (seq 0 (Z.to_nat (last - first + 1)))) <->
                first <= n <= last).
Proof.
  intros HK Hgb Hibin Hn Hz Hsum first last.
  assert (Hg : kDIM <= 2 ^ guaranteed_index_bits).
  { assert (2 ^ 32 <= 2 ^ guaranteed_index_bits)
      by (apply Z.pow_le_mono_r; lia).
    unfold unsigned_int_modulus in HK. lia. }
  split.
  - unfold closed.zone.
    rewrite (range_inside_value ax v nhood z HK Hg Hibin Hn Hz Hsum).
    cbn [fst snd]. fold first. fold last.
    assert (2 ^ 32 <= 2 ^ guaranteed_index_bits)
      by (apply Z.pow_le_mono_r; lia).
    unfold unsigned_int_modulus in HK.
    unfold closed.to_guaranteed_index at 1.
    rewrite (Z.mod_small (last - first + 1)) by (unfold first, last; lia).
    rewrite for_each_add_repeat
      by (unfold first, last; rewrite ?Z2Nat.id; lia).
    f_equal. apply map_ext. intros k. lia.
  - intros n. rewrite in_map_iff. split.
    + intros [k [<- Hk]]. apply in_seq in Hk. unfold first, last in *. lia.
    + intros Hrange. exists (Z.to_nat (n - first)). split.
      * rewrite Z2Nat.id by lia. lia.
      * apply in_seq. unfold first, last in *. lia.
Qed.

End closed_axis.

End closed_axis_facts.

(** ** The circular axis: [bin] *)

Module circular_axis_facts.

Import axis.
Import axis_cells.
Import axis_facts.
Import axis_extra_facts.
Import closed_axis_facts.

Local Open Scope Z_scope.

Section circular_axis.

Variable optional_index_bits : Z.
Variable guaranteed_index_bits : Z.

Lemma circular_scaled_defined {kDIM : Z} (ax : circular.t kDIM)
  (v : value_type) :
  (circular._min kDIM ax < circular._max kDIM ax)%Q ->
  circular.scaled ax v
  = Some ((v - circular._min kDIM ax)
          / (circular._max kDIM ax - circular._min kDIM ax)
          * inject_Z kDIM)%Q.
Proof.
  intros Hlt. unfold circular.scaled.
  destruct (Qeq_bool (circular._max kDIM ax - circular._min kDIM ax) 0)
    eqn:E; [ | reflexivity ].
  apply Qeq_bool_eq in E. exfalso. Lqa.lra.
Qed.

Lemma circular_ibin_inv {kDIM : Z} (ax : circular.t kDIM) (v : value_type)
  (z : Z) :
  circular_ibin optional_index_bits ax v = Some z ->
  exists q,
    circular.scaled ax v = Some q
    /\ closed.to_optional_index optional_index_bits q = Some z
    /\ closed.optional_index_min optional_index_bits <= z
       <= closed.optional_index_max optional_index_bits.
Proof.
  unfold circular_ibin. destruct (circular.scaled ax v) as [q |];
    [ | discriminate ].
  intros H. exists q. split; [ reflexivity | ]. split; [ exact H | ].
  unfold closed.to_optional_index in H.
  destruct (Z.leb_spec (closed.optional_index_min optional_index_bits)
              (truncate q));
    destruct (Z.leb_spec (truncate q)
                (closed.optional_index_max optional_index_bits));
    cbn [andb] in H; try discriminate.
  injection H as <-. lia.
Qed.

(** X18: for a raw index [ibin] between [-kDIM] and [kDIM],
    [circular::bin] returns [ibin] modulo [kDIM]. *)
Theorem circular_bin_one_period {kDIM : Z} (ax : circular.t kDIM)
  (v : value_type) (z : Z) :
  0 < kDIM < unsigned_int_modulus ->
  kDIM <= 2 ^ guaranteed_index_bits ->
  kDIM - 1 <= closed.optional_index_max optional_index_bits ->
  circular_ibin optional_index_bits ax v = Some z ->
  - kDIM <= z <= kDIM ->
  circular.bin optional_index_bits guaranteed_index_bits ax v
  = Some (z mod kDIM).
Proof.
  intros HK Hg Hmax Hibin Hz.
  destruct (circular_ibin_inv ax v z Hibin) as [q [Hq [Hto _]]].
  unfold circular.bin. rewrite Hq, Hto.
  unfold closed.to_guaranteed_index.
  destruct (Z.leb_spec 0 z) as [H0 | H0]; cbn [andb].
  - destruct (Z.ltb_spec z kDIM) as [Hk | Hk].
    + rewrite (Z.mod_small z (2 ^ guaranteed_index_bits)) by lia.
      now rewrite (Z.mod_small z kDIM) by lia.
    + destruct (Z.ltb_spec z 0); [ lia | ].
      assert (z = kDIM) by lia. subst z.
      rewrite Z.sub_diag, Z_mod_same_full.
      rewrite (mixed_arithmetic_small optional_index_bits 0) by lia.
      reflexivity.
  - destruct (Z.ltb_spec z 0); [ | lia ].
    rewrite (mixed_arithmetic_small optional_index_bits (kDIM + z)) by lia.
    cbn [option_map]. rewrite Z.mod_small by lia.
    f_equal. apply (Z.mod_unique _ _ (-1)); lia.
Qed.

(** X19: for a raw index [ibin] below [-kDIM] or above [kDIM],
    [circular::bin] returns an index that is at least [kDIM], outside the
    axis. *)
Theorem circular_bin_outside_period {kDIM : Z} (ax : circular.t kDIM)
  (v : value_type) (z : Z) :
  0 < kDIM < unsigned_int_modulus ->
  32 <= guaranteed_index_bits ->
  optional_index_bits - 1 <= guaranteed_index_bits ->
  circular_ibin optional_index_bits ax v = Some z ->
  z < - kDIM \/ kDIM < z ->
  exists i,
    circular.bin optional_index_bits guaranteed_index_bits ax v = Some i
    /\ kDIM <= i.
Proof.
  intros HK Hgb Hwide Hibin Hz.
  destruct (circular_ibin_inv ax v z Hibin) as [q [Hq [Hto Hrep]]].
  assert (H32 : 2 ^ 32 <= 2 ^ guaranteed_index_bits)
    by (apply Z.pow_le_mono_r; lia).
  unfold closed.optional_index_min, closed.optional_index_max,
    unsigned_int_modulus in *.
  destruct (Z.le_gt_cases 0 (optional_index_bits - 1)) as [Hp | Hp];
    [ | rewrite (Z.pow_neg_r 2 (optional_index_bits - 1)) in Hrep by lia;
        lia ].
  assert (Hpg : 2 ^ (optional_index_bits - 1) <= 2 ^ guaranteed_index_bits)
    by (apply Z.pow_le_mono_r; lia).
  unfold circular.bin. rewrite Hq, Hto.
  unfold closed.mixed_arithmetic, closed.to_guaranteed_index,
    closed.optional_index_min, closed.optional_index_max,
    unsigned_int_modulus.
  assert (Hin : (0 <=? z) && (z <? kDIM) = false).
  { destruct (Z.leb_spec 0 z); destruct (Z.ltb_spec z kDIM);
      cbn [andb]; try reflexivity. lia. }
  rewrite Hin.
  destruct (Z.ltb_spec z 0) as [Hneg | Hpos].
  - assert (Hz' : z < - kDIM) by lia.
    destruct (Z.leb_spec optional_index_bits 32) as [Hb | Hb].
    + assert (2 ^ (optional_index_bits - 1) <= 2 ^ 31)
        by (apply Z.pow_le_mono_r; lia).
      cbn [option_map].
      assert (E : (kDIM + z) mod 2 ^ 32 = kDIM + z + 2 ^ 32).
      { symmetry. apply (Z.mod_unique _ _ (-1)); lia. }
      rewrite E. rewrite Z.mod_small by lia.
      eexists. split; [ reflexivity | lia ].
    + destruct (Z.leb_spec (- 2 ^ (optional_index_bits - 1)) (kDIM + z));
        [ | lia ].
      destruct (Z.leb_spec (kDIM + z)
                  (2 ^ (optional_index_bits - 1) - 1)); [ | lia ].
      cbn [andb option_map].
      assert (E : (kDIM + z) mod 2 ^ guaranteed_index_bits
                  = kDIM + z + 2 ^ guaranteed_index_bits).
      { symmetry. apply (Z.mod_unique _ _ (-1)); lia. }
      rewrite E. eexists. split; [ reflexivity | lia ].
  - assert (Hz' : kDIM < z) by lia.
    destruct (Z.leb_spec optional_index_bits 32) as [Hb | Hb].
    + assert (2 ^ (optional_index_bits - 1) <= 2 ^ 31)
        by (apply Z.pow_le_mono_r; lia).
      cbn [option_map].
      assert (E : (kDIM - z) mod 2 ^ 32 = kDIM - z + 2 ^ 32).
      { symmetry. apply (Z.mod_unique _ _ (-1)); lia. }
      rewrite E. rewrite Z.mod_small by lia.
      eexists. split; [ reflexivity | lia ].
    + destruct (Z.leb_spec (- 2 ^ (optional_index_bits - 1)) (kDIM - z));
        [ | lia ].
      destruct (Z.leb_spec (kDIM - z)
                  (2 ^ (optional_index_bits - 1) - 1)); [ | lia ].
      cbn [andb option_map].
      assert (E : (kDIM - z) mod 2 ^ guaranteed_index_bits
                  = kDIM - z + 2 ^ guaranteed_index_bits).
      { symmetry. apply (Z.mod_unique _ _ (-1)); lia. }
      rewrite E. eexists. split; [ reflexivity | lia ].
Qed.

End circular_axis.

End circular_axis_facts.

(** ** The rays of the navigator test *)

Module navigator_cuda_facts.

Import algebra.
Import angle_facts.

Local Open Scope R_scope.

(** X21: each direction the navigator test builds for [itheta <
    theta_steps] has its polar angle [theta] strictly between 0 and pi,
    recovered by [getter::theta], and unit length. *)
Theorem ray_polar_angle (theta_steps phi_steps itheta iphi : nat) :
  (itheta < theta_steps)%nat ->
  0 < navigator_cuda.theta theta_steps itheta < PI
  /\ getter.theta (navigator_cuda.dir theta_steps phi_steps itheta iphi)
     = navigator_cuda.theta theta_steps itheta
  /\ linear.norm2 (navigator_cuda.dir theta_steps phi_steps itheta iphi) = 1.
Proof.
  intros Hlt.
  assert (Hrange : 0 < navigator_cuda.theta theta_steps itheta < PI).
  { unfold navigator_cuda.theta.
    assert (Hn : 0 < INR theta_steps) by (apply lt_0_INR; lia).
    assert (Hi : 0 <= INR itheta) by apply pos_INR.
    assert (Hin : INR itheta < INR theta_steps) by now apply lt_INR.
    pose proof PI2_1 as Hpi.
    assert (Hx : 0 <= INR itheta / INR theta_steps < 1).
    { split.
      - apply Rmult_le_pos; [ exact Hi | ].
        left. now apply Rinv_0_lt_compat.
      - apply (Rmult_lt_reg_r (INR theta_steps)); [ exact Hn | ].
        replace (INR itheta / INR theta_steps * INR theta_steps)
          with (INR itheta) by (field; lra).
        lra. }
    replace (INR itheta * (PI - 0.001) / INR theta_steps)
      with (INR itheta / INR theta_steps * (PI - 0.001)) by (field; lra).
    nra. }
  split; [ exact Hrange | ]. split.
  - unfold getter.theta, navigator_cuda.dir. cbn [at3].
    apply acos_cos. lra.
  - unfold linear.norm2, navigator_cuda.dir. cbn [at3].
    cbv delta [scalar].
    pose proof (sin2_cos2 (navigator_cuda.theta theta_steps itheta)) as Ht.
    pose proof (sin2_cos2 (navigator_cuda.phi phi_steps iphi)) as Hp.
    unfold Rsqr in Ht, Hp.
    set (st := sin (navigator_cuda.theta theta_steps itheta)) in *.
    set (ct := cos (navigator_cuda.theta theta_steps itheta)) in *.
    set (sp := sin (navigator_cuda.phi phi_steps iphi)) in *.
    set (cp := cos (navigator_cuda.phi phi_steps iphi)) in *.
    transitivity (st * st * (sp * sp + cp * cp) + ct * ct); [ ring | ].
    rewrite Hp. lra.
Qed.

End navigator_cuda_facts.

(** ** The further properties at concrete inputs *)

Module extra_instances.

Import algebra.
Import matrix_actor.
Import matrix_facts.
Import cartesian2_facts.
Import planar_facts.
Import composition_facts.
Import axis.
Import axis_cells.
Import axis_scenario.

(** Closes a comparison of numerals. *)
Ltac by_computation :=
  vm_compute; first [ reflexivity | discriminate | (intro; discriminate) ].

Section coordinates.

Local Open Scope R_scope.

Lemma sample_theta_range :
  0 < element scenario.bound_sample e_bound_theta 0 < PI.
Proof.
  change (0 < 1.2 < PI). pose proof PI2_1. lra.
Qed.

Lemma along_z_crosses :
  dot (block 3 1
         (cartesian2.reference_frame identity_transform tt
            (track_helper.pos scenario.along_z)
            (track_helper.dir scenario.along_z)) 0 2)
    (track_helper.dir scenario.along_z) <> 0.
Proof.
  planar_cbv. cbv [scenario.along_z]. mat_cbv. lra.
Qed.

Lemma along_x_on_surface :
  exists local : point2,
    track_helper.pos scenario.along_x
    = cartesian2.local_to_global identity_transform tt local
        (track_helper.dir scenario.along_x).
Proof.
  exists (0, 0). planar_cbv. cbv [scenario.along_x]. mat_cbv.
  apply f_equal2; [ apply f_equal2 | ]; lra.
Qed.

Lemma along_x_unit : linear.norm2 (track_helper.dir scenario.along_x) = 1.
Proof.
  product_cbv. cbv [scenario.along_x]. mat_cbv. lra.
Qed.

(** X2 at the identity transform and the sample bound vector. *)
Lemma free_to_bound_jacobian_left_inverse_witness :
  rigid identity_transform
  /\ 0 < element scenario.bound_sample e_bound_theta 0 < PI
  /\ exists J,
       coordinate_base.free_to_bound_jacobian (D := cartesian2.frame unit)
         identity_transform tt
         (coordinate_base.bound_to_free_vector (D := cartesian2.frame unit)
            identity_transform tt scenario.bound_sample) = Ok J
       /\ mat_eq
            (linear.mat_mul J
               (coordinate_base.bound_to_free_jacobian
                  (D := cartesian2.frame unit) identity_transform tt
                  scenario.bound_sample))
            (linear.identity e_bound_size).
Proof.
  split; [ exact rigid_identity_transform | ].
  split; [ exact sample_theta_range | ].
  exact (free_to_bound_jacobian_left_inverse identity_transform tt
           scenario.bound_sample rigid_identity_transform
           sample_theta_range).
Defined.

(** X3 at the identity transform and a track along the x axis. *)
Lemma bound_to_free_vector_free_to_bound_vector_witness :
  rigid identity_transform
  /\ (exists local : point2,
        track_helper.pos scenario.along_x
        = cartesian2.local_to_global identity_transform tt local
            (track_helper.dir scenario.along_x))
  /\ linear.norm2 (track_helper.dir scenario.along_x) = 1
  /\ mat_eq
       (coordinate_base.bound_to_free_vector (D := cartesian2.frame unit)
          identity_transform tt
          (coordinate_base.free_to_bound_vector
             (D := cartesian2.frame unit) identity_transform
             scenario.along_x))
       scenario.along_x.
Proof.
  split; [ exact rigid_identity_transform | ].
  split; [ exact along_x_on_surface | ].
  split; [ exact along_x_unit | ].
  exact (inverse_roundtrip_facts.bound_to_free_vector_free_to_bound_vector
           identity_transform tt scenario.along_x rigid_identity_transform
           along_x_on_surface along_x_unit).
Defined.

(** X5 at the identity transform and a track along the x axis. *)
Lemma free_to_bound_vector_angles_witness :
  let free_vec := scenario.along_x in
  let bound_vec :=
    coordinate_base.free_to_bound_vector (D := cartesian2.frame unit)
      identity_transform free_vec in
  -1 <= at3 (track_helper.dir free_vec) 2 <= 1
  /\ 0 <= element bound_vec e_bound_theta 0 <= PI
  /\ cos (element bound_vec e_bound_theta 0)
     = at3 (track_helper.dir free_vec) 2
  /\ - PI < element bound_vec e_bound_phi 0 <= PI.
Proof.
  cbv zeta.
  assert (Hz : -1 <= at3 (track_helper.dir scenario.along_x) 2 <= 1).
  { cbv [scenario.along_x]. mat_cbv. lra. }
  split; [ exact Hz | ].
  exact (geometry_facts.free_to_bound_vector_angles
           (D := cartesian2.frame unit) identity_transform
           scenario.along_x Hz).
Defined.

(** X6 at the identity transform and a track along the z axis. *)
Lemma free_to_path_correction_along_direction_witness :
  dot (block 3 1
         (cartesian2.reference_frame identity_transform tt
            (track_helper.pos scenario.along_z)
            (track_helper.dir scenario.along_z)) 0 2)
    (track_helper.dir scenario.along_z) <> 0
  /\ exists M,
       coordinate_base.free_to_path_correction (D := cartesian2.frame unit)
         identity_transform tt scenario.along_z = Ok M
       /\ element M 0 e_free_pos0 * at3 (track_helper.dir scenario.along_z) 0
          + element M 0 e_free_pos1
            * at3 (track_helper.dir scenario.along_z) 1
          + element M 0 e_free_pos2
            * at3 (track_helper.dir scenario.along_z) 2 = -1.
Proof.
  split; [ exact along_z_crosses | ].
  exact (geometry_facts.free_to_path_correction_along_direction
           (D := cartesian2.frame unit) identity_transform tt
           scenario.along_z along_z_crosses).
Defined.

(** X7 at the identity transform, a track along the z axis and the sample
    bound vector. *)
Lemma free_to_path_correction_annihilates_jacobian_witness :
  rigid identity_transform
  /\ dot (block 3 1
            (cartesian2.reference_frame identity_transform tt
               (track_helper.pos scenario.along_z)
               (track_helper.dir scenario.along_z)) 0 2)
       (track_helper.dir scenario.along_z) <> 0
  /\ exists M,
       coordinate_base.free_to_path_correction (D := cartesian2.frame unit)
         identity_transform tt scenario.along_z = Ok M
       /\ mat_eq
            (linear.mat_mul M
               (coordinate_base.bound_to_free_jacobian
                  (D := cartesian2.frame unit) identity_transform tt
                  scenario.bound_sample))
            (zero 1 e_bound_size).
Proof.
  split; [ exact rigid_identity_transform | ].
  split; [ exact along_z_crosses | ].
  exact (geometry_facts.free_to_path_correction_annihilates_jacobian
           identity_transform tt scenario.along_z scenario.bound_sample
           rigid_identity_transform along_z_crosses).
Defined.

(** X8 at the identity transform and the local point (1, 2). *)
Lemma local_to_global_on_plane_witness :
  rigid identity_transform
  /\ element (rotation identity_transform) 0 2
     * (at3 (cartesian2.local_to_global identity_transform tt (1, 2)
               (0, 0, 1)) 0
        - at3 (translation identity_transform) 0)
     + element (rotation identity_transform) 1 2
       * (at3 (cartesian2.local_to_global identity_transform tt (1, 2)
                 (0, 0, 1)) 1
          - at3 (translation identity_transform) 1)
     + element (rotation identity_transform) 2 2
       * (at3 (cartesian2.local_to_global identity_transform tt (1, 2)
                 (0, 0, 1)) 2
          - at3 (translation identity_transform) 2) = 0.
Proof.
  split; [ exact rigid_identity_transform | ].
  exact (geometry_facts.local_to_global_on_plane identity_transform tt
           (1, 2) (0, 0, 1) rigid_identity_transform).
Defined.

(** X9 at the identity transform: the point (1, 2, 0) moved by 5 along the
    normal. *)
Lemma global_to_local_along_normal_witness :
  rigid identity_transform
  /\ cartesian2.global_to_local identity_transform
       (at3 (1, 2, 0) 0 + 5 * element (rotation identity_transform) 0 2,
        at3 (1, 2, 0) 1 + 5 * element (rotation identity_transform) 1 2,
        at3 (1, 2, 0) 2 + 5 * element (rotation identity_transform) 2 2)
       (0, 0, 1)
     = cartesian2.global_to_local identity_transform (1, 2, 0) (0, 0, 1).
Proof.
  split; [ exact rigid_identity_transform | ].
  exact (geometry_facts.global_to_local_along_normal identity_transform
           (1, 2, 0) (0, 0, 1) 5 rigid_identity_transform).
Defined.

(** X21 at the second of four theta steps. *)
Lemma ray_polar_angle_witness :
  (1 < 4)%nat
  /\ 0 < navigator_cuda.theta 4 1 < PI
  /\ getter.theta (navigator_cuda.dir 4 8 1 3) = navigator_cuda.theta 4 1
  /\ linear.norm2 (navigator_cuda.dir 4 8 1 3) = 1.
Proof.
  assert (H : (1 < 4)%nat) by lia.
  split; [ exact H | ].
  exact (navigator_cuda_facts.ray_polar_angle 4 8 1 3 H).
Defined.

End coordinates.

Section axes.

Local Open Scope Z_scope.

(** X10 on the 10 bins over [0, 1], at the value 3.7 (raw index 37). *)
Lemma closed_bin_valid_index_witness :
  0 < 10 < unsigned_int_modulus
  /\ 10 <= 2 ^ 64
  /\ closed_ibin 32 ten_bins (37 # 10)%Q = Some 37
  /\ closed.bin 32 64 ten_bins (37 # 10)%Q
     = Some (Z.max 0 (Z.min 37 (10 - 1)))
  /\ 0 <= Z.max 0 (Z.min 37 (10 - 1)) <= 10 - 1.
Proof.
  assert (H1 : 0 < 10 < unsigned_int_modulus) by (split; by_computation).
  assert (H2 : 10 <= 2 ^ 64) by by_computation.
  assert (H3 : closed_ibin 32 ten_bins (37 # 10)%Q = Some 37)
    by by_computation.
  split; [ exact H1 | ]. split; [ exact H2 | ]. split; [ exact H3 | ].
  exact (closed_axis_facts.closed_bin_valid_index 32 64 ten_bins
           (37 # 10)%Q 37 H1 H2 H3).
Defined.

(** X12 on the 10 bins over [0, 1], at the values 0.37 and 0.52. *)
Lemma closed_bin_monotone_witness :
  0 < 10 < unsigned_int_modulus
  /\ 10 <= 2 ^ 64
  /\ (closed._min ten_bins < closed._max ten_bins)%Q
  /\ ((37 # 100) <= (52 # 100))%Q
  /\ closed.bin 32 64 ten_bins (37 # 100)%Q = Some 3
  /\ closed.bin 32 64 ten_bins (52 # 100)%Q = Some 5
  /\ 3 <= 5.
Proof.
  assert (H1 : 0 < 10 < unsigned_int_modulus) by (split; by_computation).
  assert (H2 : 10 <= 2 ^ 64) by by_computation.
  assert (H3 : (closed._min ten_bins < closed._max ten_bins)%Q)
    by by_computation.
  assert (H4 : ((37 # 100) <= (52 # 100))%Q) by by_computation.
  assert (H5 : closed.bin 32 64 ten_bins (37 # 100)%Q = Some 3)
    by by_computation.
  assert (H6 : closed.bin 32 64 ten_bins (52 # 100)%Q = Some 5)
    by by_computation.
  split; [ exact H1 | ]. split; [ exact H2 | ]. split; [ exact H3 | ].
  split; [ exact H4 | ]. split; [ exact H5 | ]. split; [ exact H6 | ].
  exact (closed_axis_facts.closed_bin_monotone 32 64 ten_bins
           (37 # 100)%Q (52 # 100)%Q 3 5 H1 H2 H3 H4 H5 H6).
Defined.

(** X13 on the 10 bins over [0, 1], at the value 3.5 above [_max]. *)
Lemma closed_bin_outside_witness :
  0 < 10 < unsigned_int_modulus
  /\ 10 <= 2 ^ 64
  /\ (closed._min ten_bins < closed._max ten_bins)%Q
  /\ closed.bin 32 64 ten_bins (7 # 2)%Q = Some 9
  /\ (((7 # 2) < closed._min ten_bins)%Q -> 9 = 0)
  /\ ((closed._max ten_bins <= (7 # 2))%Q -> 9 = 10 - 1).
Proof.
  assert (H1 : 0 < 10 < unsigned_int_modulus) by (split; by_computation).
  assert (H2 : 10 <= 2 ^ 64) by by_computation.
  assert (H3 : (closed._min ten_bins < closed._max ten_bins)%Q)
    by by_computation.
  assert (H4 : closed.bin 32 64 ten_bins (7 # 2)%Q = Some 9)
    by by_computation.
  split; [ exact H1 | ]. split; [ exact H2 | ]. split; [ exact H3 | ].
  split; [ exact H4 | ].
  exact (closed_axis_facts.closed_bin_outside 32 64 ten_bins (7 # 2)%Q 9
           H1 H2 H3 H4).
Defined.

(** X14 on the 10 bins over [0, 1], at the value 0.37 and [nhood] 1. *)
Lemma closed_range_inside_witness :
  0 < 10 < unsigned_int_modulus
  /\ 10 <= 2 ^ 64
  /\ closed_ibin 32 ten_bins (37 # 100)%Q = Some 3
  /\ 0 <= 1 <= 3
  /\ 3 < 10
  /\ 3 + 1 <= closed.optional_index_max 32
  /\ closed.range 32 64 ten_bins (37 # 100)%Q 1
     = Some (3 - 1, Z.min (3 + 1) (10 - 1))
  /\ 0 <= 3 - 1 <= Z.min (3 + 1) (10 - 1)
  /\ Z.min (3 + 1) (10 - 1) <= 10 - 1.
Proof.
  assert (H1 : 0 < 10 < unsigned_int_modulus) by (split; by_computation).
  assert (H2 : 10 <= 2 ^ 64) by by_computation.
  assert (H3 : closed_ibin 32 ten_bins (37 # 100)%Q = Some 3)
    by by_computation.
  assert (H4 : 0 <= 1 <= 3) by lia.
  assert (H5 : 3 < 10) by lia.
  assert (H6 : 3 + 1 <= closed.optional_index_max 32) by by_computation.
  split; [ exact H1 | ]. split; [ exact H2 | ]. split; [ exact H3 | ].
  split; [ exact H4 | ]. split; [ exact H5 | ]. split; [ exact H6 | ].
  exact (closed_axis_facts.closed_range_inside 32 64 ten_bins
           (37 # 100)%Q 1 3 H1 H2 H3 H4 H5 H6).
Defined.

(** X15 on the 10 bins over [0, 1], at the value 0.05 and [nhood] 1, with
    a 32-bit and with a 64-bit [optional_index]. *)
Lemma closed_range_lower_end_witness :
  (0 < 10 < unsigned_int_modulus
   /\ 10 <= 2 ^ 64
   /\ closed_ibin 32 ten_bins (5 # 100)%Q = Some 0
   /\ 0 <= 0 < 10
   /\ 0 < 1
   /\ 0 + 1 < unsigned_int_modulus
   /\ 32 <= 32
   /\ 32 <= 64
   /\ closed.range 32 64 ten_bins (5 # 100)%Q 1
      = Some (0 - 1 + unsigned_int_modulus, Z.min (0 + 1) (10 - 1)))
  /\ (closed_ibin 64 ten_bins (5 # 100)%Q = Some 0
      /\ 34 <= 64
      /\ closed.range 64 64 ten_bins (5 # 100)%Q 1
         = Some (0, Z.min (0 + 1) (10 - 1))).
Proof.
  assert (H1 : 0 < 10 < unsigned_int_modulus) by (split; by_computation).
  assert (H2 : 10 <= 2 ^ 64) by by_computation.
  assert (H3 : closed_ibin 32 ten_bins (5 # 100)%Q = Some 0)
    by by_computation.
  assert (H3' : closed_ibin 64 ten_bins (5 # 100)%Q = Some 0)
    by by_computation.
  assert (H4 : 0 <= 0 < 10) by lia.
  assert (H5 : 0 < 1) by lia.
  assert (H6 : 0 + 1 < unsigned_int_modulus) by by_computation.
  assert (H7 : 32 <= 32) by lia.
  assert (H8 : 32 <= 64) by lia.
  assert (H9 : 34 <= 64) by lia.
  split.
  - split; [ exact H1 | ]. split; [ exact H2 | ]. split; [ exact H3 | ].
    split; [ exact H4 | ]. split; [ exact H5 | ]. split; [ exact H6 | ].
    split; [ exact H7 | ]. split; [ exact H8 | ].
    exact (proj1 (closed_axis_facts.closed_range_lower_end 32 64 ten_bins
                    (5 # 100)%Q 1 0 H1 H2 H3 H4 H5 H6) H7 H8).
  - split; [ exact H3' | ]. split; [ exact H9 | ].
    exact (proj2 (closed_axis_facts.closed_range_lower_end 64 64 ten_bins
                    (5 # 100)%Q 1 0 H1 H2 H3' H4 H5 H6) H9).
Defined.

(** X16 on the 10 bins over [0, 1], at the value 2 (raw index 20) and
    [nhood] 1. *)
Lemma closed_range_above_axis_witness :
  0 < 10 < unsigned_int_modulus
  /\ 10 <= 2 ^ 64
  /\ closed_ibin 32 ten_bins 2%Q = Some 20
  /\ 0 <= 1
  /\ 10 + 1 <= 20
  /\ 20 + 1 <= closed.optional_index_max 32
  /\ 20 - 1 < 2 ^ 64
  /\ closed.range 32 64 ten_bins 2%Q 1 = Some (20 - 1, 10 - 1)
  /\ 10 - 1 < 20 - 1.
Proof.
  assert (H1 : 0 < 10 < unsigned_int_modulus) by (split; by_computation).
  assert (H2 : 10 <= 2 ^ 64) by by_computation.
  assert (H3 : closed_ibin 32 ten_bins 2%Q = Some 20) by by_computation.
  assert (H4 : 0 <= 1) by lia.
  assert (H5 : 10 + 1 <= 20) by lia.
  assert (H6 : 20 + 1 <= closed.optional_index_max 32) by by_computation.
  assert (H7 : 20 - 1 < 2 ^ 64) by by_computation.
  split; [ exact H1 | ]. split; [ exact H2 | ]. split; [ exact H3 | ].
  split; [ exact H4 | ]. split; [ exact H5 | ]. split; [ exact H6 | ].
  split; [ exact H7 | ].
  exact (closed_axis_facts.closed_range_above_axis 32 64 ten_bins 2%Q 1 20
           H1 H2 H3 H4 H5 H6 H7).
Defined.

(** X17 on the 10 bins over [0, 1], at the value 0.37 and [nhood] 1. *)
Lemma closed_zone_inside_witness :
  0 < 10 < unsigned_int_modulus
  /\ 32 <= 64
  /\ closed_ibin 32 ten_bins (37 # 100)%Q = Some 3
  /\ 0 <= 1 <= 3
  /\ 3 < 10
  /\ 3 + 1 <= closed.optional_index_max 32
  /\ closed.zone 32 64 ten_bins (37 # 100)%Q 1
     = Some (map (fun k => 3 - 1 + Z.of_nat k)
               (seq 0 (Z.to_nat (Z.min (3 + 1) (10 - 1) - (3 - 1) + 1))))
  /\ (forall n,
        In n (map (fun k => 3 - 1 + Z.of_nat k)
                (seq 0 (Z.to_nat (Z.min (3 + 1) (10 - 1) - (3 - 1) + 1))))
        <-> 3 - 1 <= n <= Z.min (3 + 1) (10 - 1)).
Proof.
  assert (H1 : 0 < 10 < unsigned_int_modulus) by (split; by_computation).
  assert (H2 : 32 <= 64) by lia.
  assert (H3 : closed_ibin 32 ten_bins (37 # 100)%Q = Some 3)
    by by_computation.
  assert (H4 : 0 <= 1 <= 3) by lia.
  assert (H5 : 3 < 10) by lia.
  assert (H6 : 3 + 1 <= closed.optional_index_max 32) by by_computation.
  split; [ exact H1 | ]. split; [ exact H2 | ]. split; [ exact H3 | ].
  split; [ exact H4 | ]. split; [ exact H5 | ]. split; [ exact H6 | ].
  exact (closed_axis_facts.closed_zone_inside 32 64 ten_bins (37 # 100)%Q
           1 3 H1 H2 H3 H4 H5 H6).
Defined.

(** X18 on the circular 10 bins over [0, 1], at the value -0.15 (raw index
    -1). *)
Lemma circular_bin_one_period_witness :
  0 < 10 < unsigned_int_modulus
  /\ 10 <= 2 ^ 64
  /\ 10 - 1 <= closed.optional_index_max 32
  /\ circular_ibin 32 ten_bins_circular (- (15 # 100))%Q = Some (-1)
  /\ - 10 <= -1 <= 10
  /\ circular.bin 32 64 ten_bins_circular (- (15 # 100))%Q
     = Some (-1 mod 10).
Proof.
  assert (H1 : 0 < 10 < unsigned_int_modulus) by (split; by_computation).
  assert (H2 : 10 <= 2 ^ 64) by by_computation.
  assert (H3 : 10 - 1 <= closed.optional_index_max 32) by by_computation.
  assert (H4 : circular_ibin 32 ten_bins_circular (- (15 # 100))%Q
               = Some (-1)) by by_computation.
  assert (H5 : - 10 <= -1 <= 10) by lia.
  split; [ exact H1 | ]. split; [ exact H2 | ]. split; [ exact H3 | ].
  split; [ exact H4 | ]. split; [ exact H5 | ].
  exact (circular_axis_facts.circular_bin_one_period 32 64
           ten_bins_circular (- (15 # 100))%Q (-1) H1 H2 H3 H4 H5).
Defined.

(** X19 on the circular 10 bins over [0, 1], at the value 1.15 (raw index
    11). *)
Lemma circular_bin_outside_period_witness :
  0 < 10 < unsigned_int_modulus
  /\ 32 <= 64
  /\ 32 - 1 <= 64
  /\ circular_ibin 32 ten_bins_circular (115 # 100)%Q = Some 11
  /\ (11 < - 10 \/ 10 < 11)
  /\ exists i,
       circular.bin 32 64 ten_bins_circular (115 # 100)%Q = Some i
       /\ 10 <= i.
Proof.
  assert (H1 : 0 < 10 < unsigned_int_modulus) by (split; by_computation).
  assert (H2 : 32 <= 64) by lia.
  assert (H3 : 32 - 1 <= 64) by lia.
  assert (H4 : circular_ibin 32 ten_bins_circular (115 # 100)%Q = Some 11)
    by by_computation.
  assert (H5 : 11 < - 10 \/ 10 < 11) by (right; lia).
  split; [ exact H1 | ]. split; [ exact H2 | ]. split; [ exact H3 | ].
  split; [ exact H4 | ]. split; [ exact H5 | ].
  exact (circular_axis_facts.circular_bin_outside_period 32 64
           ten_bins_circular (115 # 100)%Q 11 H1 H2 H3 H4 H5).
Defined.

End axes.

End extra_instances.
